(** * AFDKO: the unified command invoker and the feature-compiler design

    Part one ([Dispatch]) embeds [c/afdko/afdko_main.cpp]: the command
    registry, [find_command], [print_help] and [main].

    Part two ([FeatureCompiler]) covers two stages of the OpenType Layout
    feature compiler that the design document describes, the semantic
    analyzer and the variable-value resolver.  Their code (hotconv:
    FeatParser, FeatVisitor, varsupport, ...) is not among the available
    sources, so the definitions of part two are modelled from the design
    document, and each says so. *)

From stdpp Require Import base option list strings gmap.
From Stdlib Require Import ZArith QArith Ascii Lia.

Close Scope Q_scope.

(* ===================================================================== *)
(** * Part one: the command dispatcher, [afdko_main.cpp]                  *)
(* ===================================================================== *)

Module Dispatch.

Local Open Scope string_scope.
Local Open Scope Z_scope.

(** ** C strings

    A [const char*] is modelled by the [string] of the bytes that precede
    its terminating NUL.  [strcmp] walks both strings from the left and
    answers at the first position where they differ, comparing bytes as
    [unsigned char]; the terminator is smaller than every byte of a string.
    Only the sign of the answer is fixed by the C standard, and the
    dispatcher only ever tests the answer against zero. *)

Definition uchar (c : ascii) : Z := Z.of_N (N_of_ascii c).

Fixpoint strcmp (a b : string) : Z :=
  match a, b with
  | EmptyString, EmptyString => 0
  | EmptyString, String _ _ => -1
  | String _ _, EmptyString => 1
  | String c a', String d b' =>
      if uchar c <? uchar d then -1
      else if uchar d <? uchar c then 1
      else strcmp a' b'
  end.

(** [extern char *FDK_VERSION], which the standalone binary defines for
    the tools that refer to it. *)
Definition FDK_VERSION : string := "unknown".

(** The line feed that the source writes as a backslash-n escape. *)
Definition LF : string := String "010"%char EmptyString.

(** ** The command registry *)

(** The tools' entry points [main__tx] and [main__sfntedit], declared
    extern with C linkage and defined in other translation units. *)
Inductive EntryPoint : Set :=
| main__tx
| main__sfntedit.

(** [struct Command]; [abbrev] can be [nullptr]. *)
Record Command : Set := {
  name : string;
  abbrev : option string;
  cpp_main : EntryPoint
}.

(** [static const Command commands[]].  The array ends with an all-null
    sentinel that every loop over it tests for ([commands[i].name !=
    nullptr]); the list holds the entries before the sentinel and its end
    plays the sentinel's part. *)
Definition commands : list Command :=
  [ {| name := "tx"; abbrev := None; cpp_main := main__tx |};
    {| name := "sfntedit"; abbrev := Some "se"; cpp_main := main__sfntedit |} ].

(** The body of the [for] loop of [find_command], from entry [cs] on.
    The result [&commands[i]] is given as the entry itself. *)
Fixpoint find_command_from (cs : list Command) (nm : string) : option Command :=
  match cs with
  | [] => None
  | c :: rest =>
      if strcmp (name c) nm =? 0 then Some c
      else
        match abbrev c with
        | Some a =>
            if strcmp a nm =? 0 then Some c else find_command_from rest nm
        | None => find_command_from rest nm
        end
  end.

Definition find_command (nm : string) : option Command :=
  find_command_from commands nm.

(** ** What the program does to the outside world

    [main] writes to stdout and stderr and calls one tool entry point.
    A run is a finite tree of these actions; the tool's return value is
    an answer from outside, so the tree branches on it.

    [Spawn] stands for starting an external process (the interpreter of
    the Python tools).  No statement of [afdko_main.cpp] does that, and no
    definition below builds it; it is here so that properties that speak
    of such a fallback can be written down and decided. *)
Inductive Prog (A : Type) : Type :=
| Ret (a : A)
| Printf (s : string) (k : Prog A)
| FprintfStderr (s : string) (k : Prog A)
| CallCpp (f : EntryPoint) (argc : Z) (argv : list string) (k : Z -> Prog A)
| Spawn (cmdline : list string) (k : Z -> Prog A).

Arguments Ret {A} a.
Arguments Printf {A} s k.
Arguments FprintfStderr {A} s k.
Arguments CallCpp {A} f argc argv k.
Arguments Spawn {A} cmdline k.

Fixpoint bind {A B} (p : Prog A) (f : A -> Prog B) : Prog B :=
  match p with
  | Ret a => f a
  | Printf s k => Printf s (bind k f)
  | FprintfStderr s k => FprintfStderr s (bind k f)
  | CallCpp g argc argv k => CallCpp g argc argv (fun r => bind (k r) f)
  | Spawn c k => Spawn c (fun r => bind (k r) f)
  end.

Declare Scope prog_scope.
Delimit Scope prog_scope with prog.
Bind Scope prog_scope with Prog.
Notation "p ;; q" := (bind p (fun _ => q))
  (at level 100, q at level 200, right associativity) : prog_scope.
Local Open Scope prog_scope.

Definition printf (s : string) : Prog unit := Printf s (Ret tt).
Definition fprintf_stderr (s : string) : Prog unit := FprintfStderr s (Ret tt).
Definition call (f : EntryPoint) (argc : Z) (argv : list string) : Prog Z :=
  CallCpp f argc argv Ret.

(** The conversion [%-20s]: the string, then blanks up to width 20. *)
Definition pad_right (w : nat) (s : string) : string :=
  s ++ String.concat "" (replicate (w - String.length s)%nat " ").

(** The [for] loop of [print_help]. *)
Fixpoint print_commands (cs : list Command) : Prog unit :=
  match cs with
  | [] => Ret tt
  | c :: rest =>
      match abbrev c with
      | Some a =>
          printf ("  " ++ pad_right 20 (name c) ++ " (abbrev: " ++ a ++ ")" ++ LF)
      | None => printf ("  " ++ name c ++ LF)
      end ;;
      print_commands rest
  end.

Definition print_help : Prog unit :=
  printf ("Usage: afdko <command> [options]" ++ LF ++ LF) ;;
  printf ("AFDKO Unified Command Interface" ++ LF ++ LF) ;;
  printf ("Available Commands (Phase 1 - Proof of Concept):" ++ LF) ;;
  print_commands commands ;;
  printf (LF ++ "Run 'afdko <command> -h' for command-specific help." ++ LF) ;;
  printf (LF ++ "Note: This is Phase 1 - more commands will be added in subsequent phases." ++ LF).

(** [main].  The C runtime passes [argc] as the number of entries of
    [argv], so [argv] alone is the argument here and [argc] is its
    length; [argv + 1] is the list without its head. *)
Definition main (argv : list string) : Prog Z :=
  let argc := Z.of_nat (length argv) in
  if argc <? 2 then
    print_help ;; Ret 1
  else
    let subcmd := nth 1 argv "" in
    if (strcmp subcmd "-h" =? 0)
       || (strcmp subcmd "--help" =? 0)
       || (strcmp subcmd "help" =? 0)
    then
      print_help ;; Ret 0
    else
      match find_command subcmd with
      | None =>
          fprintf_stderr ("Error: Unknown command '" ++ subcmd ++ "'" ++ LF) ;;
          fprintf_stderr ("Run 'afdko --help' for usage." ++ LF) ;;
          Ret 1
      | Some cmd =>
          let argc := argc - 1 in
          let argv := tail argv in
          call (cpp_main cmd) argc argv
      end.

(** ** Running a program

    [run tool p] plays [p] against a description [tool] of what the tool
    entry points return, and gives the actions in order together with the
    value the program returns. *)
Inductive Event : Type :=
| Stdout (s : string)
| Stderr (s : string)
| Called (f : EntryPoint) (argc : Z) (argv : list string)
| Spawned (cmdline : list string).

Section Run.
Variable tool : EntryPoint -> Z -> list string -> Z.
Variable external : list string -> Z.

Fixpoint run {A} (p : Prog A) : list Event * A :=
  match p with
  | Ret a => ([], a)
  | Printf s k => let '(t, a) := run k in (Stdout s :: t, a)
  | FprintfStderr s k => let '(t, a) := run k in (Stderr s :: t, a)
  | CallCpp f argc argv k =>
      let '(t, a) := run (k (tool f argc argv)) in
      (Called f argc argv :: t, a)
  | Spawn c k =>
      let '(t, a) := run (k (external c)) in (Spawned c :: t, a)
  end.

Definition exit_status (argv : list string) : Z := snd (run (main argv)).
Definition trace (argv : list string) : list Event := fst (run (main argv)).
End Run.

(** A program that starts an external process on some path through it. *)
Inductive Spawns {A} : Prog A -> Prop :=
| Spawns_here c k : Spawns (Spawn c k)
| Spawns_printf s k : Spawns k -> Spawns (Printf s k)
| Spawns_stderr s k : Spawns k -> Spawns (FprintfStderr s k)
| Spawns_call f argc argv k r : Spawns (k r) -> Spawns (CallCpp f argc argv k)
| Spawns_spawn c k r : Spawns (k r) -> Spawns (Spawn c k).

(** The first argument asks for help. *)
Definition is_help (s : string) : Prop :=
  s = "-h" \/ s = "--help" \/ s = "help".

(** [c] is registered under [nm]: [nm] is its name or its abbreviation. *)
Definition answers_to (c : Command) (nm : string) : Prop :=
  name c = nm \/ abbrev c = Some nm.

End Dispatch.

(* ===================================================================== *)
(** * Part one, closer to the machine: arrays, indices and pointers       *)
(* ===================================================================== *)

(** [Dispatch] reads the registry as a list and [argv] as a list whose
    length is [argc].  Here the same code is written as it indexes memory:
    the registry is an array that ends with an all-null sentinel and is
    walked by index, [argc] and [argv] are separate arguments, and every
    read of an array cell may fall outside the array. *)

Module DispatchRaw.
Import Dispatch.

Local Open Scope string_scope.
Local Open Scope Z_scope.
Local Open Scope prog_scope.

(** [struct Command] as the array holds it: each of the three pointers
    can be null. *)
Record RawCommand : Set := {
  raw_name : option string;
  raw_abbrev : option string;
  raw_cpp_main : option EntryPoint
}.

(** [static const Command commands[]], sentinel included. *)
Definition commands_array : list RawCommand :=
  [ {| raw_name := Some "tx"; raw_abbrev := None; raw_cpp_main := Some main__tx |};
    {| raw_name := Some "sfntedit"; raw_abbrev := Some "se";
       raw_cpp_main := Some main__sfntedit |};
    {| raw_name := None; raw_abbrev := None; raw_cpp_main := None |} ].

(** How a piece of code that indexes memory ends: with a result, with a
    read outside an array, with a call through a null function pointer
    (both undefined behaviour in C), or without having ended in the number
    of loop steps it was given. *)
Inductive Outcome (A : Type) : Type :=
| Done (a : A)
| OutOfBounds
| NullCall
| OutOfFuel.

Arguments Done {A} a.
Arguments OutOfBounds {A}.
Arguments NullCall {A}.
Arguments OutOfFuel {A}.

Definition and_then {A B} (o : Outcome A) (f : A -> Outcome B) : Outcome B :=
  match o with
  | Done a => f a
  | OutOfBounds => OutOfBounds
  | NullCall => NullCall
  | OutOfFuel => OutOfFuel
  end.

(** The [for] loop of [find_command] from index [i] on, over any array:
    [commands[i]] is read, the loop ends with null at the entry whose name
    is null, and the result [&commands[i]] is given as the index [i]. *)
Fixpoint find_command_loop (arr : list RawCommand) (nm : string)
    (fuel : nat) (i : nat) : Outcome (option nat) :=
  match fuel with
  | O => OutOfFuel
  | S fuel' =>
      match arr !! i with
      | None => OutOfBounds
      | Some c =>
          match raw_name c with
          | None => Done None
          | Some n =>
              if strcmp n nm =? 0 then Done (Some i)
              else
                match raw_abbrev c with
                | Some a =>
                    if strcmp a nm =? 0 then Done (Some i)
                    else find_command_loop arr nm fuel' (S i)
                | None => find_command_loop arr nm fuel' (S i)
                end
          end
      end
  end.

(** [find_command] over the array of the source; the loop is given one
    step per cell of the array. *)
Definition find_command_raw (nm : string) : Outcome (option nat) :=
  find_command_loop commands_array nm (length commands_array) 0.

(** The [for] loop of [print_help] from index [i] on, over any array. *)
Fixpoint print_commands_loop (arr : list RawCommand) (fuel : nat) (i : nat)
  : Outcome (Prog unit) :=
  match fuel with
  | O => OutOfFuel
  | S fuel' =>
      match arr !! i with
      | None => OutOfBounds
      | Some c =>
          match raw_name c with
          | None => Done (Ret tt)
          | Some n =>
              and_then (print_commands_loop arr fuel' (S i)) (fun rest =>
                Done (match raw_abbrev c with
                      | Some a =>
                          printf ("  " ++ pad_right 20 n ++ " (abbrev: " ++ a ++ ")" ++ LF)
                      | None => printf ("  " ++ n ++ LF)
                      end ;; rest))
          end
      end
  end.

Definition print_help_raw : Outcome (Prog unit) :=
  and_then (print_commands_loop commands_array (length commands_array) 0)
    (fun listing =>
       Done (printf ("Usage: afdko <command> [options]" ++ LF ++ LF) ;;
             printf ("AFDKO Unified Command Interface" ++ LF ++ LF) ;;
             printf ("Available Commands (Phase 1 - Proof of Concept):" ++ LF) ;;
             listing ;;
             printf (LF ++ "Run 'afdko <command> -h' for command-specific help." ++ LF) ;;
             printf (LF ++ "Note: This is Phase 1 - more commands will be added in subsequent phases." ++ LF))).

(** [main] with [argc] and [argv] as the two arguments they are: [argv[1]]
    is a read of the array [argv], and the dispatch is a call through the
    pointer [cmd->cpp_main]. *)
Definition main_raw (argc : Z) (argv : list string) : Outcome (Prog Z) :=
  if argc <? 2 then
    and_then print_help_raw (fun help => Done (help ;; Ret 1))
  else
    match argv !! 1%nat with
    | None => OutOfBounds
    | Some subcmd =>
        if (strcmp subcmd "-h" =? 0)
           || (strcmp subcmd "--help" =? 0)
           || (strcmp subcmd "help" =? 0)
        then
          and_then print_help_raw (fun help => Done (help ;; Ret 0))
        else
          and_then (find_command_raw subcmd) (fun cmd =>
            match cmd with
            | None =>
                Done (fprintf_stderr ("Error: Unknown command '" ++ subcmd ++ "'" ++ LF) ;;
                      fprintf_stderr ("Run 'afdko --help' for usage." ++ LF) ;;
                      Ret 1)
            | Some i =>
                match commands_array !! i with
                | None => OutOfBounds
                | Some c =>
                    match raw_cpp_main c with
                    | None => NullCall
                    | Some f => Done (call f (argc - 1) (drop 1 argv))
                    end
                end
            end)
    end.

(** An array that the loops can walk: before the first entry with a null
    name there is no end of the array and no entry with a null entry
    point. *)
Fixpoint terminated (arr : list RawCommand) : bool :=
  match arr with
  | [] => false
  | c :: rest =>
      match raw_name c with
      | None => true
      | Some _ =>
          match raw_cpp_main c with
          | Some _ => terminated rest
          | None => false
          end
      end
  end.

(** The entries of an array before its sentinel, as [Dispatch] has them. *)
Fixpoint registered (arr : list RawCommand) : list Command :=
  match arr with
  | [] => []
  | c :: rest =>
      match raw_name c, raw_cpp_main c with
      | Some n, Some f =>
          {| name := n; abbrev := raw_abbrev c; cpp_main := f |} :: registered rest
      | _, _ => []
      end
  end.

(** The array cell that holds a registered command. *)
Definition cell (c : Command) : RawCommand :=
  {| raw_name := Some (name c); raw_abbrev := abbrev c;
     raw_cpp_main := Some (cpp_main c) |}.

(** The strings a command answers to: its name, and its abbreviation when
    it has one. *)
Definition keys_of (c : Command) : list string :=
  name c :: match abbrev c with Some a => [a] | None => [] end.

Definition keys (cs : list Command) : list string := concat (keys_of <$> cs).

(** The line that [print_help] prints for a command. *)
Definition help_line (c : Command) : string :=
  match abbrev c with
  | Some a => "  " ++ pad_right 20 (name c) ++ " (abbrev: " ++ a ++ ")" ++ LF
  | None => "  " ++ name c ++ LF
  end.

(** Everything that [print_help] prints: three lines of heading, the line
    of every command, two lines of closing. *)
Definition help_heading : list string :=
  [ "Usage: afdko <command> [options]" ++ LF ++ LF;
    "AFDKO Unified Command Interface" ++ LF ++ LF;
    "Available Commands (Phase 1 - Proof of Concept):" ++ LF ].

Definition help_closing : list string :=
  [ LF ++ "Run 'afdko <command> -h' for command-specific help." ++ LF;
    LF ++ "Note: This is Phase 1 - more commands will be added in subsequent phases." ++ LF ].

Definition help_lines : list string :=
  app help_heading (app (help_line <$> commands) help_closing).

(** A string of [n] blanks. *)
Definition blanks (n : nat) : string := String.concat "" (replicate n " ").

(** The events of a run that are calls of a tool, writes to stdout, and
    writes to stderr. *)
Definition is_call (e : Event) : bool :=
  match e with Called _ _ _ => true | _ => false end.

Definition is_stdout (e : Event) : bool :=
  match e with Stdout _ => true | _ => false end.

Definition is_stderr (e : Event) : bool :=
  match e with Stderr _ => true | _ => false end.

End DispatchRaw.

(* ===================================================================== *)
(** * Part two: the feature compiler of the design document              *)
(* ===================================================================== *)

Module FeatureCompiler.

Local Open Scope string_scope.

(** ** Diagnostics *)

(** Modelled from the spec: the error taxonomy of section 7; the
    compiler's diagnostics code is not in the sources. *)
Inductive ErrorKind : Set :=
| LexError
| SyntaxError
| SemanticError
| ConstraintError
| VariableFontError.

#[global] Instance ErrorKind_eq_dec : EqDecision ErrorKind.
Proof. solve_decision. Defined.

(** Modelled from the spec: the severity field of a diagnostic record
    (section 6); the compiler's diagnostics code is not in the sources. *)
Inductive Severity : Set :=
| SevError
| SevWarning.

#[global] Instance Severity_eq_dec : EqDecision Severity.
Proof. solve_decision. Defined.

(** Modelled from the spec: a source location, the [file], [line] and
    [column] fields of a diagnostic record (section 6); the compiler's
    diagnostics code is not in the sources. *)
Record Pos : Set := {
  file : string;
  line : nat;
  column : nat
}.

#[global] Instance Pos_eq_dec : EqDecision Pos.
Proof. solve_decision. Defined.

(** Modelled from the spec: a record of the diagnostics report of
    section 6, [{severity, kind, message, file, line, column}]; the
    compiler's diagnostics code is not in the sources. *)
Record Diagnostic : Set := {
  severity : Severity;
  kind : ErrorKind;
  message : string;
  location : Pos
}.

#[global] Instance Diagnostic_eq_dec : EqDecision Diagnostic.
Proof. solve_decision. Defined.

Definition error (k : ErrorKind) (msg : string) (p : Pos) : Diagnostic :=
  {| severity := SevError; kind := k; message := msg; location := p |}.

Definition is_error (d : Diagnostic) : bool :=
  bool_decide (severity d = SevError).

(** Modelled from the spec: errors mark the compile as failed, warnings
    never abort (sections 4.3 and 7); the compiler's driver is not in the
    sources. *)
Definition has_errors (ds : list Diagnostic) : bool := existsb is_error ds.

(** ** The semantic analyzer (section 4.3)

    The analyzer (FeatVisitor in hotconv) and the parser whose AST it
    walks are not in the sources.  What follows is the part of section 4.3
    that deals with glyph classes, lookups and features: class references
    and their expansion, the length check of paired classes, the
    numbering of lookups, and the lookup lists of features. *)

Module Analyzer.

(** Modelled from the spec: a glyph identifier, here the glyph name (the
    analyzer's glyph order is not in the sources). *)
Definition Glyph : Set := string.

(** Modelled from the spec: a glyph class as a rule of the parser's AST
    (not in the sources) names it, an ordered sequence of glyphs that is
    anonymous ([ClassLit]) or named ([ClassRef]); a single glyph stands
    for the class that holds it. *)
Inductive ClassExpr : Set :=
| GlyphName (g : Glyph)
| ClassLit (gs : list Glyph)
| ClassRef (nm : string).

(** Modelled from the spec: rule statements of the parser's AST (not in
    the sources), each with its source position.  [SubstClass] is a
    substitution of one class by another, the rule that uses two classes
    pairwise; [SubstLigature] is the rule of the minimal end-to-end case of
    section 8 and [PosPairAdjust] the one of its pair positioning case. *)
Inductive Rule : Set :=
| SubstClass (p : Pos) (target replacement : ClassExpr)
| SubstLigature (p : Pos) (components : list Glyph) (lig : Glyph)
| PosPairAdjust (p : Pos) (first second : Glyph) (advance : Z).

(** Modelled from the spec: the statements inside a feature block of the
    parser's AST (not in the sources).
    [FInline] is a run of rules written directly in the block, for which
    the analyzer synthesizes a lookup; [FLookupRef] refers to a named
    lookup; [FLookupBlock] declares a named lookup in place, which the
    feature then uses. *)
Inductive FeatureItem : Set :=
| FScript (tag : string)
| FLanguage (tag : string)
| FInline (p : Pos) (rules : list Rule)
| FLookupRef (p : Pos) (nm : string)
| FLookupBlock (p : Pos) (nm : string) (rules : list Rule).

(** Modelled from the spec: the top-level statements of the parser's AST
    (not in the sources) that bear on classes, lookups and features. *)
Inductive Statement : Set :=
| SLanguageSystem (script lang : string)
| SClassDef (p : Pos) (nm : string) (c : ClassExpr)
| SLookupBlock (p : Pos) (nm : string) (rules : list Rule)
| SFeatureBlock (tag : string) (items : list FeatureItem).

(** Modelled from the spec: the concrete rule data of a resolved lookup,
    rules with their classes expanded into glyphs (the analyzer's IR is
    not in the sources). *)
Inductive ConcreteRule : Set :=
| CSingle (g r : Glyph)
| CLigature (components : list Glyph) (lig : Glyph)
| CPair (first second : Glyph) (advance : Z).

#[global] Instance ConcreteRule_eq_dec : EqDecision ConcreteRule.
Proof. solve_decision. Defined.

(** Modelled from the spec: where a lookup of the analyzer's IR (not in
    the sources) comes from, a named lookup block or the inline rules at
    some place of a feature block. *)
Inductive Origin : Set :=
| Named (nm : string)
| Inline (feature : string) (p : Pos).

#[global] Instance Origin_eq_dec : EqDecision Origin.
Proof. solve_decision. Defined.

(** Modelled from the spec: a resolved lookup of the analyzer's IR (not
    in the sources).  Its identity is its index. *)
Record Lookup : Set := {
  lk_index : nat;
  lk_origin : Origin;
  lk_rules : list ConcreteRule
}.

(** Modelled from the spec: the key of a lookup list of the analyzer's
    IR (not in the sources), a feature tag with a (script tag, language
    tag) pair. *)
Definition Key : Set := string * (string * string).

(** Modelled from the spec: the state of the analyzer (not in the
    sources), its symbol table (named classes, named lookups) and the IR
    it produces, the list of resolved lookups and the map from a feature
    and a (script, language) pair to lookup indices, with the diagnostics
    collected so far. *)
Record IR : Type := {
  ir_classes : gmap string (list Glyph);
  ir_named : gmap string nat;
  ir_lookups : list Lookup;
  ir_features : gmap Key (list nat);
  ir_diags : list Diagnostic
}.

(** Modelled from the spec: the state a compile starts from; every
    invocation owns its symbol table and IR (section 5). *)
Definition empty_ir : IR :=
  {| ir_classes := ∅; ir_named := ∅; ir_lookups := [];
     ir_features := ∅; ir_diags := [] |}.

(** Modelled from the spec: the analyzer's errors are collected into the
    batched report (section 4.3); the analyzer is not in the sources. *)
Definition add_diags (ds : list Diagnostic) (st : IR) : IR :=
  {| ir_classes := ir_classes st; ir_named := ir_named st;
     ir_lookups := ir_lookups st; ir_features := ir_features st;
     ir_diags := (ir_diags st ++ ds)%list |}.

(** Modelled from the spec: the analyzer (not in the sources) resolves a
    class reference in the symbol table, or not at all. *)
Definition resolve_class (env : gmap string (list Glyph)) (c : ClassExpr)
  : option (list Glyph) :=
  match c with
  | GlyphName g => Some [g]
  | ClassLit gs => Some gs
  | ClassRef nm => env !! nm
  end.

(** Modelled from the spec: the analyzer's length check (not in the
    sources).  Two classes used pairwise must have equal length, or one
    side must be a singleton, which is then broadcast over the other side;
    any other pair is a mismatch. *)
Definition pair_classes (a b : list Glyph) : option (list (Glyph * Glyph)) :=
  if decide (length a = length b) then Some (zip a b)
  else
    match a, b with
    | [x], _ => Some (pair x <$> b)
    | _, [y] => Some ((fun x => (x, y)) <$> a)
    | _, _ => None
    end.

(** Modelled from the spec: the analyzer's treatment of one rule (not in
    the sources), which expands the classes and validates their lengths,
    and fails with [SemanticError] for an unresolved symbol or for
    incompatible class lengths. *)
Definition analyze_rule (env : gmap string (list Glyph)) (r : Rule)
  : Diagnostic + list ConcreteRule :=
  match r with
  | SubstClass p target replacement =>
      match resolve_class env target, resolve_class env replacement with
      | Some a, Some b =>
          match pair_classes a b with
          | Some ps => inr (uncurry CSingle <$> ps)
          | None => inl (error SemanticError "incompatible class lengths" p)
          end
      | _, _ => inl (error SemanticError "unresolved symbol" p)
      end
  | SubstLigature p components lig => inr [CLigature components lig]
  | PosPairAdjust p first second advance => inr [CPair first second advance]
  end.

(** Modelled from the spec: the analyzer's treatment of the rules of one
    block (not in the sources), in order; the errors are batched, and a
    rule in error gives no concrete rule. *)
Fixpoint analyze_rules (env : gmap string (list Glyph)) (rules : list Rule)
  : list ConcreteRule * list Diagnostic :=
  match rules with
  | [] => ([], [])
  | r :: rest =>
      let '(crs, ds) := analyze_rules env rest in
      match analyze_rule env r with
      | inl d => (crs, d :: ds)
      | inr cs => ((cs ++ crs)%list, ds)
      end
  end.

(** Modelled from the spec: the analyzer's numbering of lookups (not in
    the sources).  A new lookup takes the next index, the number of
    lookups declared before it. *)
Definition declare (o : Origin) (crs : list ConcreteRule) (st : IR) : IR * nat :=
  let idx := length (ir_lookups st) in
  ({| ir_classes := ir_classes st;
      ir_named :=
        match o with
        | Named nm => <[nm := idx]> (ir_named st)
        | Inline _ _ => ir_named st
        end;
      ir_lookups :=
        (ir_lookups st ++ [{| lk_index := idx; lk_origin := o; lk_rules := crs |}])%list;
      ir_features := ir_features st;
      ir_diags := ir_diags st |}, idx).

(** Modelled from the spec: the analyzer's treatment of a named lookup
    block (not in the sources).  Its rules are analyzed, and it is
    declared unless the name is taken, a duplicate definition. *)
Definition declare_named (p : Pos) (nm : string) (rules : list Rule) (st : IR)
  : IR * option nat :=
  let '(crs, ds) := analyze_rules (ir_classes st) rules in
  let st := add_diags ds st in
  match ir_named st !! nm with
  | Some _ =>
      (add_diags [error SemanticError "duplicate definition" p] st, None)
  | None => let '(st, idx) := declare (Named nm) crs st in (st, Some idx)
  end.

(** Modelled from the spec: the analyzer's recording of a use of a
    lookup (not in the sources), at the end of the list of its feature and
    (script, language) pair. *)
Definition reference (k : Key) (idx : nat) (st : IR) : IR :=
  {| ir_classes := ir_classes st; ir_named := ir_named st;
     ir_lookups := ir_lookups st;
     ir_features := <[k := (default [] (ir_features st !! k) ++ [idx])%list]> (ir_features st);
     ir_diags := ir_diags st |}.

(** Modelled from the spec: the (script, language) pair that the
    statements of a feature block currently stand under (the analyzer is
    not in the sources); [DFLT]/[dflt] until a statement says otherwise. *)
Definition Cursor : Set := string * string.

(** Modelled from the spec: the analyzer's treatment of one statement of
    a feature block (not in the sources).  Inline rules get a synthesized
    lookup, which the feature uses; a reference must resolve to a lookup
    in scope; a lookup block is declared and used. *)
Definition analyze_item (tag : string) (acc : IR * Cursor) (it : FeatureItem)
  : IR * Cursor :=
  let '(st, cur) := acc in
  match it with
  | FScript s => (st, (s, "dflt"))
  | FLanguage l => (st, (fst cur, l))
  | FInline p rules =>
      let '(crs, ds) := analyze_rules (ir_classes st) rules in
      let '(st, idx) := declare (Inline tag p) crs (add_diags ds st) in
      (reference (tag, cur) idx st, cur)
  | FLookupRef p nm =>
      match ir_named st !! nm with
      | Some idx => (reference (tag, cur) idx st, cur)
      | None => (add_diags [error SemanticError "unresolved symbol" p] st, cur)
      end
  | FLookupBlock p nm rules =>
      match declare_named p nm rules st with
      | (st, Some idx) => (reference (tag, cur) idx st, cur)
      | (st, None) => (st, cur)
      end
  end.

(** Modelled from the spec: the analyzer's treatment of one top-level
    statement (not in the sources). *)
Definition analyze_statement (st : IR) (s : Statement) : IR :=
  match s with
  | SLanguageSystem _ _ => st
  | SClassDef p nm c =>
      match resolve_class (ir_classes st) c with
      | None => add_diags [error SemanticError "unresolved symbol" p] st
      | Some gs =>
          match ir_classes st !! nm with
          | Some _ => add_diags [error SemanticError "duplicate definition" p] st
          | None =>
              {| ir_classes := <[nm := gs]> (ir_classes st);
                 ir_named := ir_named st; ir_lookups := ir_lookups st;
                 ir_features := ir_features st; ir_diags := ir_diags st |}
          end
      end
  | SLookupBlock p nm rules => fst (declare_named p nm rules st)
  | SFeatureBlock tag items =>
      fst (foldl (analyze_item tag) (st, ("DFLT", "dflt")) items)
  end.

(** Modelled from the spec: the analyzer (not in the sources) walks the
    statements in source order, from an empty symbol table. *)
Definition analyze_from (st : IR) (prog : list Statement) : IR :=
  foldl analyze_statement st prog.

Definition analyze (prog : list Statement) : IR := analyze_from empty_ir prog.

(** Modelled from the spec: the IR's ordered lookup list of a feature
    under a (script, language) pair (the IR is not in the sources). *)
Definition feature_lookups (st : IR) (k : Key) : list nat :=
  default [] (ir_features st !! k).

(** *** The source order, read off the statements *)

(** The lookup that one statement of a feature block declares, if any. *)
Definition item_declaration (tag : string) (it : FeatureItem) : list Origin :=
  match it with
  | FInline p _ => [Inline tag p]
  | FLookupBlock _ nm _ => [Named nm]
  | _ => []
  end.

(** The lookups that a feature block declares, in the order of its text. *)
Definition item_declarations (tag : string) (items : list FeatureItem) : list Origin :=
  concat (item_declaration tag <$> items).

Definition statement_declarations (s : Statement) : list Origin :=
  match s with
  | SLookupBlock _ nm _ => [Named nm]
  | SFeatureBlock tag items => item_declarations tag items
  | _ => []
  end.

(** Every lookup that the source declares, named or inline, in the order
    of the text. *)
Definition declarations (prog : list Statement) : list Origin :=
  concat (statement_declarations <$> prog).

(** The (script, language) pair after a statement of a feature block. *)
Definition next_cursor (cur : Cursor) (it : FeatureItem) : Cursor :=
  match it with
  | FScript s => (s, "dflt")
  | FLanguage l => (fst cur, l)
  | _ => cur
  end.

(** The lookup that one statement of a feature block uses, if any, with
    the (script, language) pair it stands under. *)
Definition item_reference (tag : string) (cur : Cursor) (it : FeatureItem)
  : list (Key * Origin) :=
  match it with
  | FInline p _ => [((tag, cur), Inline tag p)]
  | FLookupRef _ nm => [((tag, cur), Named nm)]
  | FLookupBlock _ nm _ => [((tag, cur), Named nm)]
  | _ => []
  end.

(** The uses of lookups in a feature block, in the order of the text. *)
Fixpoint item_references (tag : string) (cur : Cursor) (items : list FeatureItem)
  : list (Key * Origin) :=
  match items with
  | [] => []
  | it :: rest =>
      (item_reference tag cur it ++ item_references tag (next_cursor cur it) rest)%list
  end.

Definition statement_references (s : Statement) : list (Key * Origin) :=
  match s with
  | SFeatureBlock tag items => item_references tag ("DFLT", "dflt") items
  | _ => []
  end.

Definition references (prog : list Statement) : list (Key * Origin) :=
  concat (statement_references <$> prog).

(** The uses under one key, in the order of the text. *)
Definition under (k : Key) (h : list (Key * Origin)) : list Origin :=
  snd <$> filter (fun r => fst r = k) h.

Definition references_under (k : Key) (prog : list Statement) : list Origin :=
  under k (references prog).

(** Index [idx] of the IR is a lookup of origin [o]. *)
Definition denotes (st : IR) (idx : nat) (o : Origin) : Prop :=
  exists l, ir_lookups st !! idx = Some l /\ lk_index l = idx /\ lk_origin l = o.

(** The origins of the lookups of the IR, by index. *)
Definition origins (st : IR) : list Origin := lk_origin <$> ir_lookups st.

(** The analysis only ever adds to the report and to the lookup list. *)
Definition grows (st st' : IR) : Prop :=
  ir_diags st `prefix_of` ir_diags st' /\
  ir_lookups st `prefix_of` ir_lookups st' /\
  forall k, feature_lookups st k `prefix_of` feature_lookups st' k.

(** Every lookup of the IR sits at its own index, and every name of the
    symbol table leads to the lookup declared under it. *)
Definition indexed (st : IR) : Prop :=
  forall i l, ir_lookups st !! i = Some l -> lk_index l = i.

Definition named_ok (st : IR) : Prop :=
  forall nm idx, ir_named st !! nm = Some idx -> denotes st idx (Named nm).

(** The lookup lists of the IR follow the uses [h], key by key. *)
Definition tracks (st : IR) (h : list (Key * Origin)) : Prop :=
  forall k, Forall2 (denotes st) (feature_lookups st k) (under k h).

(** Two classes may be used pairwise. *)
Definition compatible (a b : list Glyph) : Prop :=
  length a = length b \/ length a = 1 \/ length b = 1.

(** The rules of a program, wherever they stand. *)
Definition item_rules (it : FeatureItem) : list Rule :=
  match it with
  | FInline _ rules => rules
  | FLookupBlock _ _ rules => rules
  | _ => []
  end.

Definition statement_rules (s : Statement) : list Rule :=
  match s with
  | SLookupBlock _ _ rules => rules
  | SFeatureBlock _ items => concat (item_rules <$> items)
  | _ => []
  end.

Definition program_rules (prog : list Statement) : list Rule :=
  concat (statement_rules <$> prog).

(** *** Sample sources *)

Definition at_line (n : nat) : Pos :=
  {| file := "features.fea"; line := n; column := 1 |}.

(** The minimal end-to-end case of section 8: a language system and a
    feature [liga] with one inline ligature rule. *)
Definition minimal_case : list Statement :=
  [ SLanguageSystem "DFLT" "dflt";
    SFeatureBlock "liga" [FInline (at_line 3) [SubstLigature (at_line 3) ["f"; "f"] "f_f"]] ].

(** A source with a named class, a named lookup, and a feature that mixes
    inline rules, a reference, a script statement and a lookup block. *)
Definition sample_source : list Statement :=
  [ SLanguageSystem "DFLT" "dflt";
    SClassDef (at_line 2) "LOWER" (ClassLit ["a"; "b"; "c"]);
    SLookupBlock (at_line 3) "SMCP"
      [SubstClass (at_line 4) (ClassRef "LOWER") (ClassLit ["A.sc"; "B.sc"; "C.sc"])];
    SFeatureBlock "liga"
      [ FInline (at_line 7) [SubstLigature (at_line 7) ["f"; "f"] "f_f"];
        FLookupRef (at_line 8) "SMCP";
        FScript "latn";
        FLookupBlock (at_line 10) "DOTS"
          [SubstClass (at_line 11) (ClassRef "LOWER") (GlyphName "dot")];
        FLookupRef (at_line 13) "SMCP";
        FInline (at_line 14) [PosPairAdjust (at_line 14) "A" "B" (-50)] ] ].

(** A source whose one rule pairs three glyphs with two. *)
Definition mismatched_source : list Statement :=
  [ SFeatureBlock "smcp"
      [FInline (at_line 2)
         [SubstClass (at_line 2) (ClassLit ["a"; "b"; "c"]) (ClassLit ["A.sc"; "B.sc"])]] ].

End Analyzer.

(** ** The variable-value resolver (section 4.4)

    The resolver (varsupport, designspace) is not in the sources. *)

Module Resolver.

(** Modelled from the spec: an axis of the designspace, a tag with its
    declared range and default (the designspace reader is not in the
    sources). *)
Record Axis : Set := {
  axis_tag : string;
  axis_min : Q;
  axis_default : Q;
  axis_max : Q
}.

(** Modelled from the spec: the designspace as the resolver sees it, its
    set of axes (the designspace reader is not in the sources). *)
Definition Designspace : Set := list Axis.

(** Modelled from the spec: a location, axis coordinates by axis tag
    (the resolver's data model is not in the sources). *)
Definition Location : Set := list (string * Q).

(** Modelled from the spec: a variable value literal of the form
    (default, {location: value, ...}) with its source position (the
    parser's AST is not in the sources). *)
Record VarValue : Set := {
  vv_pos : Pos;
  vv_default : Q;
  vv_at : list (Location * Q)
}.

(** Modelled from the spec: what resolution builds, one default value and
    one delta per explicit location (the resolver is not in the
    sources). *)
Record DeltaSet : Set := {
  ds_default : Q;
  ds_deltas : list (Location * Q)
}.

(** Modelled from the spec: the axis of the active designspace that a
    coordinate refers to (the resolver is not in the sources). *)
Fixpoint find_axis (ds : Designspace) (tag : string) : option Axis :=
  match ds with
  | [] => None
  | ax :: rest =>
      if decide (axis_tag ax = tag) then Some ax else find_axis rest tag
  end.

(** Modelled from the spec: a coordinate lies within the declared range
    of an axis (the resolver is not in the sources). *)
Definition in_range (ax : Axis) (c : Q) : bool :=
  Qle_bool (axis_min ax) c && Qle_bool c (axis_max ax).

(** Modelled from the spec: the resolver's check of one coordinate (not
    in the sources).  Its axis must be an axis of the designspace, and the
    coordinate must lie within the axis's range. *)
Definition coordinate_ok (ds : Designspace) (tc : string * Q) : bool :=
  match find_axis ds (fst tc) with
  | Some ax => in_range ax (snd tc)
  | None => false
  end.

(** Modelled from the spec: the resolver's check of one location (not in
    the sources), coordinate by coordinate. *)
Definition location_ok (ds : Designspace) (loc : Location) : bool :=
  forallb (coordinate_ok ds) loc.

(** Modelled from the spec: the resolver (not in the sources).  Every
    referenced location is validated; a location that fails makes
    resolution fail with [VariableFontError], and nothing is clamped.
    Otherwise the default is kept, and every explicit location gives one
    delta, its value less the default, at the location as it was
    written. *)
Definition resolve (ds : Designspace) (v : VarValue) : Diagnostic + DeltaSet :=
  if forallb (fun lv => location_ok ds (fst lv)) (vv_at v) then
    inr {| ds_default := vv_default v;
           ds_deltas :=
             (fun lv => (fst lv, (snd lv - vv_default v)%Q)) <$> vv_at v |}
  else
    inl (error VariableFontError "location outside the designspace" (vv_pos v)).

(** A coordinate that lies outside the declared range of its axis. *)
Definition out_of_range (ds : Designspace) (tc : string * Q) : Prop :=
  exists ax,
    find_axis ds (fst tc) = Some ax /\
    (snd tc < axis_min ax \/ axis_max ax < snd tc)%Q.

(** A coordinate on a declared axis and within its range. *)
Definition within_range (ds : Designspace) (tc : string * Q) : Prop :=
  exists ax,
    find_axis ds (fst tc) = Some ax /\
    (axis_min ax <= snd tc /\ snd tc <= axis_max ax)%Q.

(** *** Sample inputs *)

(** A designspace with a weight axis from 100 to 900 and a width axis
    from 75 to 125. *)
Definition sample_designspace : Designspace :=
  [ {| axis_tag := "wght"; axis_min := 100; axis_default := 400; axis_max := 900 |};
    {| axis_tag := "wdth"; axis_min := 75; axis_default := 100; axis_max := 125 |} ]%Q.

(** A value of 500 by default, 620 at the heaviest weight and 455.5 at the
    lightest weight and narrowest width. *)
Definition sample_value : VarValue :=
  {| vv_pos := {| file := "features.fea"; line := 12; column := 5 |};
     vv_default := 500;
     vv_at := [ ([("wght", 900)], 620);
                ([("wght", 100); ("wdth", 75)], 911 # 2) ] |}%Q.

(** The same with a weight of 1000, beyond the axis. *)
Definition overshooting_value : VarValue :=
  {| vv_pos := {| file := "features.fea"; line := 13; column := 5 |};
     vv_default := 500;
     vv_at := [ ([("wght", 900)], 620); ([("wght", 1000)], 640) ] |}%Q.

End Resolver.

End FeatureCompiler.

(* ===================================================================== *)
(** * Properties of the command dispatcher                                *)
(* ===================================================================== *)

Module DispatchSpec.
Import Dispatch.

Local Open Scope string_scope.
Local Open Scope Z_scope.
Local Open Scope prog_scope.

(** ** [strcmp] answers zero exactly on equal strings *)

Lemma uchar_inj c d : uchar c = uchar d -> c = d.
Proof.
  unfold uchar. intros H. apply N2Z.inj in H.
  rewrite <- (ascii_N_embedding c), <- (ascii_N_embedding d).
  now rewrite H.
Qed.

Lemma strcmp_refl a : strcmp a a = 0.
Proof.
  induction a as [|c a IH]; simpl; [reflexivity|].
  now rewrite Z.ltb_irrefl.
Qed.

Lemma strcmp_zero_eq a : forall b, strcmp a b = 0 -> a = b.
Proof.
  induction a as [|c a IH]; intros [|d b]; simpl; try discriminate; auto.
  destruct (Z.ltb_spec (uchar c) (uchar d)); [discriminate|].
  destruct (Z.ltb_spec (uchar d) (uchar c)); [discriminate|].
  intros H1. f_equal; [apply uchar_inj; lia | now apply IH].
Qed.

Lemma strcmp_eqb a b : (strcmp a b =? 0) = bool_decide (a = b).
Proof.
  destruct (Z.eqb_spec (strcmp a b) 0) as [H|H].
  - apply strcmp_zero_eq in H. subst. now rewrite bool_decide_eq_true_2.
  - rewrite bool_decide_eq_false_2; [reflexivity|].
    intros ->. apply H, strcmp_refl.
Qed.

(** ** The loop of [find_command] over any registry *)

Lemma find_command_from_Some cs nm c :
  find_command_from cs nm = Some c ->
  exists pre post,
    cs = (pre ++ c :: post)%list /\ answers_to c nm /\
    Forall (fun c' => ~ answers_to c' nm) pre.
Proof.
  induction cs as [|c0 cs IH]; simpl; [discriminate|].
  rewrite strcmp_eqb. case_bool_decide as Hn.
  { intros [= <-]. exists [], cs. repeat split; [now left | constructor]. }
  destruct (abbrev c0) as [a|] eqn:Ha.
  - rewrite strcmp_eqb. case_bool_decide as Hab.
    + intros [= <-]. exists [], cs. subst a.
      repeat split; [now right | constructor].
    + intros H. destruct (IH H) as (pre & post & -> & Hc & Hpre).
      exists (c0 :: pre), post. repeat split; auto.
      constructor; auto. intros [?|Hx]; [auto|]. rewrite Ha in Hx.
      injection Hx as ->. auto.
  - intros H. destruct (IH H) as (pre & post & -> & Hc & Hpre).
    exists (c0 :: pre), post. repeat split; auto.
    constructor; auto. intros [?|Hx]; [auto|]. rewrite Ha in Hx. discriminate.
Qed.

Lemma find_command_from_None cs nm :
  find_command_from cs nm = None <->
  Forall (fun c => ~ answers_to c nm) cs.
Proof.
  induction cs as [|c0 cs IH]; simpl.
  { split; [constructor | reflexivity]. }
  rewrite strcmp_eqb. case_bool_decide as Hn.
  { split; [discriminate|]. intros H. inversion H as [|? ? H0 _]; subst.
    exfalso. apply H0. now left. }
  destruct (abbrev c0) as [a|] eqn:Ha.
  - rewrite strcmp_eqb. case_bool_decide as Hab.
    + split; [discriminate|]. intros H. inversion H as [|? ? H0 _]; subst.
      exfalso. apply H0. right. now rewrite Ha.
    + rewrite IH. split.
      * intros H. constructor; auto. intros [?|Hx]; [auto|].
        rewrite Ha in Hx. injection Hx as ->. auto.
      * intros H. now inversion H.
  - rewrite IH. split.
    + intros H. constructor; auto. intros [?|Hx]; [auto|].
      rewrite Ha in Hx. discriminate.
    + intros H. now inversion H.
Qed.

Lemma find_command_from_first pre c post nm :
  answers_to c nm ->
  Forall (fun c' => ~ answers_to c' nm) pre ->
  find_command_from (pre ++ c :: post)%list nm = Some c.
Proof.
  intros Hc. induction pre as [|c0 pre IH]; intros Hpre; simpl.
  - rewrite strcmp_eqb. case_bool_decide as Hn; [reflexivity|].
    destruct Hc as [?|Hc]; [contradiction|]. rewrite Hc.
    rewrite strcmp_eqb. now rewrite bool_decide_eq_true_2.
  - inversion Hpre as [|? ? H0 Hrest]; subst.
    rewrite strcmp_eqb. case_bool_decide as Hn.
    { exfalso. apply H0. now left. }
    destruct (abbrev c0) as [a|] eqn:Ha; [|now apply IH].
    rewrite strcmp_eqb. case_bool_decide as Hab; [|now apply IH].
    exfalso. apply H0. right. now rewrite Ha, Hab.
Qed.

(** The registry answers to three strings only. *)
Lemma find_command_cases nm :
  (nm = "tx" /\ find_command nm = nth_error commands 0) \/
  ((nm = "sfntedit" \/ nm = "se") /\ find_command nm = nth_error commands 1) \/
  (nm <> "tx" /\ nm <> "sfntedit" /\ nm <> "se" /\ find_command nm = None).
Proof.
  unfold find_command, commands. cbn [find_command_from name abbrev].
  rewrite !strcmp_eqb.
  repeat case_bool_decide; subst; auto; try discriminate.
  right. right. repeat split; congruence.
Qed.

Lemma find_command_not_help nm c :
  find_command nm = Some c -> ~ is_help nm.
Proof.
  intros H [-> | [-> | ->]]; vm_compute in H; discriminate.
Qed.

(** The three comparisons of [main] against the help flags. *)
Lemma help_test s :
  (strcmp s "-h" =? 0) || (strcmp s "--help" =? 0) || (strcmp s "help" =? 0)
  = bool_decide (is_help s).
Proof.
  rewrite !strcmp_eqb. unfold is_help.
  repeat case_bool_decide; simpl; try reflexivity; exfalso; tauto.
Qed.

(** [main] by cases, as equations between programs. *)
Lemma main_no_subcommand argv :
  (length argv < 2)%nat -> main argv = (print_help ;; Ret 1).
Proof.
  intros H. unfold main.
  destruct (Z.ltb_spec (Z.of_nat (length argv)) 2); [reflexivity | lia].
Qed.

Lemma main_help argv :
  (2 <= length argv)%nat -> is_help (nth 1 argv "") ->
  main argv = (print_help ;; Ret 0).
Proof.
  intros H Hh. unfold main.
  destruct (Z.ltb_spec (Z.of_nat (length argv)) 2); [lia|].
  rewrite help_test. now rewrite bool_decide_eq_true_2.
Qed.

Lemma main_unknown argv :
  (2 <= length argv)%nat -> ~ is_help (nth 1 argv "") ->
  find_command (nth 1 argv "") = None ->
  main argv =
    (fprintf_stderr ("Error: Unknown command '" ++ nth 1 argv "" ++ "'" ++ LF) ;;
     fprintf_stderr ("Run 'afdko --help' for usage." ++ LF) ;;
     Ret 1).
Proof.
  intros H Hh Hf. unfold main.
  destruct (Z.ltb_spec (Z.of_nat (length argv)) 2); [lia|].
  rewrite help_test. rewrite bool_decide_eq_false_2 by assumption.
  now rewrite Hf.
Qed.

Lemma main_registered argv c :
  (2 <= length argv)%nat -> find_command (nth 1 argv "") = Some c ->
  main argv = call (cpp_main c) (Z.of_nat (length argv) - 1) (tail argv).
Proof.
  intros H Hf. unfold main.
  destruct (Z.ltb_spec (Z.of_nat (length argv)) 2); [lia|].
  rewrite help_test.
  rewrite bool_decide_eq_false_2 by (eapply find_command_not_help; eauto).
  now rewrite Hf.
Qed.

(** Walks a program given in full and finds no [Spawn] in it. *)
Ltac no_spawn :=
  repeat match goal with
         | H : Spawns _ |- _ => inversion H; clear H; subst
         end.

Lemma print_help_no_spawn (r : Z) : ~ Spawns (print_help ;; Ret r).
Proof. intros H. vm_compute in H. no_spawn. Qed.

(** ** The claims about the dispatcher *)

(** C8.  For every input string, [find_command] returns the first
    registered command whose name or whose (non-null) abbreviation equals
    the input exactly, and null when no registered command does.  So "tx"
    and "sfntedit" resolve by name and "se" resolves to sfntedit, while
    every other string, such as a prefix of a name or a name in capitals,
    gives null. *)
Theorem find_command_exact_match (nm : string) :
  (forall c,
      find_command nm = Some c <->
      exists pre post,
        commands = (pre ++ c :: post)%list /\ answers_to c nm /\
        Forall (fun c' => ~ answers_to c' nm) pre) /\
  (find_command nm = None <-> Forall (fun c => ~ answers_to c nm) commands) /\
  find_command "tx" = Some {| name := "tx"; abbrev := None; cpp_main := main__tx |} /\
  find_command "sfntedit" =
    Some {| name := "sfntedit"; abbrev := Some "se"; cpp_main := main__sfntedit |} /\
  find_command "se" =
    Some {| name := "sfntedit"; abbrev := Some "se"; cpp_main := main__sfntedit |} /\
  (nm <> "tx" -> nm <> "sfntedit" -> nm <> "se" -> find_command nm = None) /\
  find_command "t" = None /\ find_command "sfnt" = None /\
  find_command "TX" = None /\ find_command "Se" = None /\
  find_command "" = None.
Proof.
  split; [|split].
  - intros c. split.
    + apply find_command_from_Some.
    + intros (pre & post & Hc & Ha & Hpre). unfold find_command.
      rewrite Hc. now apply find_command_from_first.
  - apply find_command_from_None.
  - repeat split; try reflexivity.
    intros H1 H2 H3.
    destruct (find_command_cases nm) as [[? _]|[[[?|?] _]|(_ & _ & _ & H)]];
      congruence.
Qed.

(** C9.  With no subcommand [main] prints the help text and returns 1;
    with first argument "-h", "--help" or "help" it prints the same help
    text and returns 0; with an unknown subcommand it writes an error to
    stderr and returns 1; with a registered subcommand it returns the value
    that the subcommand's entry point returned.  Which of these happens is
    decided by the first argument alone: two argument vectors with the
    same first argument behave alike when it names no command, and reach
    the same entry point when it names one. *)
Theorem main_exit_status
    (tool : EntryPoint -> Z -> list string -> Z) (external : list string -> Z)
    (argv : list string) :
  ((length argv < 2)%nat ->
     main argv = (print_help ;; Ret 1) /\
     trace tool external argv = fst (run tool external print_help) /\
     exit_status tool external argv = 1) /\
  ((2 <= length argv)%nat -> is_help (nth 1 argv "") ->
     main argv = (print_help ;; Ret 0) /\
     trace tool external argv = fst (run tool external print_help) /\
     exit_status tool external argv = 0) /\
  ((2 <= length argv)%nat -> ~ is_help (nth 1 argv "") ->
   find_command (nth 1 argv "") = None ->
     trace tool external argv =
       [Stderr ("Error: Unknown command '" ++ nth 1 argv "" ++ "'" ++ LF);
        Stderr ("Run 'afdko --help' for usage." ++ LF)] /\
     exit_status tool external argv = 1) /\
  (forall c,
     (2 <= length argv)%nat -> find_command (nth 1 argv "") = Some c ->
     exit_status tool external argv =
       tool (cpp_main c) (Z.of_nat (length argv) - 1) (tail argv)) /\
  (forall argv',
     (2 <= length argv)%nat -> (2 <= length argv')%nat ->
     nth 1 argv' "" = nth 1 argv "" ->
     match find_command (nth 1 argv "") with
     | None => main argv' = main argv
     | Some c =>
         main argv' = call (cpp_main c) (Z.of_nat (length argv') - 1) (tail argv')
     end).
Proof.
  unfold exit_status, trace. split; [|split; [|split; [|split]]].
  - intros H. rewrite main_no_subcommand by assumption. now repeat split.
  - intros H Hh. rewrite main_help by assumption. now repeat split.
  - intros H Hh Hf. rewrite main_unknown by assumption. now split.
  - intros c H Hf. rewrite (main_registered argv c) by assumption. reflexivity.
  - intros argv' H H' E.
    destruct (find_command (nth 1 argv "")) as [c|] eqn:Hf.
    + apply main_registered; [assumption | now rewrite E].
    + destruct (decide (is_help (nth 1 argv ""))) as [Hh|Hh].
      * rewrite !main_help; auto. now rewrite E.
      * rewrite !main_unknown; auto; rewrite E; auto.
Qed.

Lemma main_exit_status_witness :
  exit_status (fun _ _ _ => 7) (fun _ => 0) ["afdko"] = 1 /\
  exit_status (fun _ _ _ => 7) (fun _ => 0) ["afdko"; "--help"] = 0 /\
  exit_status (fun _ _ _ => 7) (fun _ => 0) ["afdko"; "makeotf"; "-r"] = 1 /\
  exit_status (fun _ _ _ => 7) (fun _ => 0) ["afdko"; "se"; "font.otf"] = 7.
Proof.
  split; [|split; [|split]].
  - destruct (main_exit_status (fun _ _ _ => 7) (fun _ => 0) ["afdko"])
      as (H & _).
    apply H. simpl. lia.
  - destruct (main_exit_status (fun _ _ _ => 7) (fun _ => 0)
                ["afdko"; "--help"]) as (_ & H & _).
    apply H.
    + simpl. lia.
    + right. left. reflexivity.
  - destruct (main_exit_status (fun _ _ _ => 7) (fun _ => 0)
                ["afdko"; "makeotf"; "-r"]) as (_ & _ & H & _).
    apply H.
    + simpl. lia.
    + intros [H1|[H1|H1]]; discriminate H1.
    + reflexivity.
  - destruct (main_exit_status (fun _ _ _ => 7) (fun _ => 0)
                ["afdko"; "se"; "font.otf"]) as (_ & _ & _ & H & _).
    apply (H {| name := "sfntedit"; abbrev := Some "se";
                cpp_main := main__sfntedit |}).
    + simpl. lia.
    + reflexivity.
Defined.

(** C10.  When [main] dispatches to a registered subcommand it drops
    exactly one leading argument: the entry point is called with
    [argc - 1] and with [argv] without its head, so the subcommand name is
    the callee's [argv[0]] and every later argument follows unchanged and
    in order. *)
Theorem main_shifts_arguments (argv : list string) (c : Command) :
  (2 <= length argv)%nat ->
  find_command (nth 1 argv "") = Some c ->
  exists argv0 argv',
    argv = argv0 :: argv' /\
    main argv = CallCpp (cpp_main c) (Z.of_nat (length argv) - 1) argv' Ret /\
    Z.of_nat (length argv') = Z.of_nat (length argv) - 1 /\
    argv' !! 0%nat = Some (nth 1 argv "") /\
    (forall i : nat, argv' !! i = argv !! S i).
Proof.
  intros H Hf. destruct argv as [|argv0 [|sub rest]]; simpl in H; try lia.
  exists argv0, (sub :: rest).
  split; [reflexivity|]. split; [|split; [|split]].
  - now rewrite (main_registered _ c).
  - simpl length. lia.
  - reflexivity.
  - intros i. reflexivity.
Qed.

Lemma main_shifts_arguments_witness :
  exists argv0 argv',
    ["afdko"; "tx"; "-dump"; "font.otf"] = argv0 :: argv' /\
    main ["afdko"; "tx"; "-dump"; "font.otf"] =
      CallCpp main__tx 3 argv' Ret /\
    argv' = ["tx"; "-dump"; "font.otf"].
Proof.
  destruct (main_shifts_arguments ["afdko"; "tx"; "-dump"; "font.otf"]
              {| name := "tx"; abbrev := None; cpp_main := main__tx |})
    as (argv0 & argv' & Heq & Hmain & _).
  - simpl. lia.
  - reflexivity.
  - exists argv0, argv'. injection Heq as <- <-.
    split; [reflexivity|]. split; [exact Hmain | reflexivity].
Defined.

(** C7, as the design note has it, fails: a subcommand that is not in
    the table, here "makeotf", is turned away with an error on stderr and
    status 1, and no external process is started. *)
Lemma unknown_command_is_rejected :
  find_command "makeotf" = None /\
  main ["afdko"; "makeotf"] =
    FprintfStderr ("Error: Unknown command 'makeotf'" ++ LF)
      (FprintfStderr ("Run 'afdko --help' for usage." ++ LF) (Ret 1)) /\
  ~ Spawns (main ["afdko"; "makeotf"]).
Proof.
  split; [reflexivity|]. split; [reflexivity|].
  intros H. vm_compute in H. no_spawn.
Qed.

(** C7, amended.  [main] resolves the subcommand through the command
    table: a name the table holds is dispatched to that entry's C++ entry
    point, and a name it does not hold (and that is no help flag) is
    rejected with two lines on stderr and status 1.  On no input does
    [main] start an external process. *)
Theorem dispatch_by_table_only (argv : list string) :
  ~ Spawns (main argv) /\
  ((2 <= length argv)%nat -> ~ is_help (nth 1 argv "") ->
   match find_command (nth 1 argv "") with
   | Some c =>
       In c commands /\
       main argv = call (cpp_main c) (Z.of_nat (length argv) - 1) (tail argv)
   | None =>
       main argv =
         FprintfStderr ("Error: Unknown command '" ++ nth 1 argv "" ++ "'" ++ LF)
           (FprintfStderr ("Run 'afdko --help' for usage." ++ LF) (Ret 1))
   end).
Proof.
  split.
  - destruct (le_lt_dec 2 (length argv)) as [H|H].
    + destruct (decide (is_help (nth 1 argv ""))) as [Hh|Hh].
      * rewrite main_help by assumption. apply print_help_no_spawn.
      * destruct (find_command (nth 1 argv "")) as [c|] eqn:Hf.
        -- rewrite (main_registered argv c) by assumption.
           intros Hs. inversion Hs as [| | |? ? ? ? r Hr|]; subst.
           inversion Hr.
        -- rewrite main_unknown by assumption. intros Hs. cbn in Hs.
           no_spawn.
    + rewrite main_no_subcommand by assumption. apply print_help_no_spawn.
  - intros H Hh. destruct (find_command (nth 1 argv "")) as [c|] eqn:Hf.
    + split; [|now apply main_registered].
      apply find_command_from_Some in Hf.
      destruct Hf as (pre & post & Hc & _). fold commands in Hc.
      rewrite Hc. apply in_or_app. right. now left.
    + now apply main_unknown.
Qed.

Lemma dispatch_by_table_only_witness :
  main ["afdko"; "spot"; "-h"] =
    FprintfStderr ("Error: Unknown command 'spot'" ++ LF)
      (FprintfStderr ("Run 'afdko --help' for usage." ++ LF) (Ret 1)).
Proof.
  apply (proj2 (dispatch_by_table_only ["afdko"; "spot"; "-h"])).
  - simpl. lia.
  - intros [H|[H|H]]; discriminate H.
Defined.

End DispatchSpec.

(* ===================================================================== *)
(** * Properties of the semantic analyzer                                 *)
(* ===================================================================== *)

Module AnalyzerSpec.
Import FeatureCompiler FeatureCompiler.Analyzer.

Local Open Scope string_scope.

(** ** Pairing two classes *)

Lemma pair_classes_mismatch a b : ~ compatible a b -> pair_classes a b = None.
Proof.
  unfold compatible, pair_classes. intros H.
  destruct (decide (length a = length b)) as [E|E]; [tauto|].
  destruct a as [|x [|x' a]], b as [|y [|y' b]]; simpl in *;
    try reflexivity; exfalso; apply H; auto.
Qed.

Lemma pair_classes_shape a b ps :
  pair_classes a b = Some ps ->
  (length a = length b /\ ps.*1 = a /\ ps.*2 = b) \/
  (exists x, a = [x] /\ ps = pair x <$> b) \/
  (exists y, b = [y] /\ ps = (fun x => (x, y)) <$> a).
Proof.
  unfold pair_classes.
  destruct (decide (length a = length b)) as [E|E].
  - intros [= <-]. left. split; [assumption|].
    split; [apply fst_zip | apply snd_zip]; lia.
  - destruct a as [|x [|x' a]], b as [|y [|y' b]]; simpl;
      intros [= <-]; eauto.
Qed.

Lemma pair_classes_compatible a b ps :
  pair_classes a b = Some ps -> compatible a b.
Proof.
  intros H. destruct (pair_classes_shape _ _ _ H) as [(E & _)|[(x & -> & _)|(y & -> & _)]];
    unfold compatible; auto.
Qed.

(** A class expression that names no class resolves the same way in every
    symbol table. *)
Lemma resolve_class_closed env c gs :
  resolve_class ∅ c = Some gs -> resolve_class env c = Some gs.
Proof. destruct c; simpl; auto. rewrite lookup_empty. discriminate. Qed.

Lemma analyze_rule_mismatch env p target replacement a b :
  resolve_class env target = Some a ->
  resolve_class env replacement = Some b ->
  ~ compatible a b ->
  analyze_rule env (SubstClass p target replacement)
  = inl (error SemanticError "incompatible class lengths" p).
Proof.
  intros Ha Hb Hc. simpl. rewrite Ha, Hb.
  now rewrite pair_classes_mismatch.
Qed.

(** ** The diagnostics and the lookups only grow *)

Lemma grows_refl st : grows st st.
Proof. split; [|split]; reflexivity. Qed.

Lemma grows_trans st1 st2 st3 : grows st1 st2 -> grows st2 st3 -> grows st1 st3.
Proof.
  intros (? & ? & ?) (? & ? & ?).
  split; [|split]; [| |intros k]; etransitivity; eauto.
Qed.

Lemma add_diags_grows ds st : grows st (add_diags ds st).
Proof. split; [|split]; simpl; [apply prefix_app_r| |]; reflexivity. Qed.

Lemma declare_grows o crs st : grows st (declare o crs st).1.
Proof.
  split; [|split]; simpl; [reflexivity | apply prefix_app_r |]; reflexivity.
Qed.

Lemma feature_lookups_reference k idx st k' :
  feature_lookups (reference k idx st) k'
  = if decide (k = k') then (feature_lookups st k ++ [idx])%list
    else feature_lookups st k'.
Proof.
  unfold feature_lookups. simpl. destruct (decide (k = k')) as [->|Hne].
  - now rewrite lookup_insert_eq.
  - now rewrite lookup_insert_ne.
Qed.

Lemma reference_grows k idx st : grows st (reference k idx st).
Proof.
  split; [|split]; [reflexivity..|].
  intros k'. rewrite feature_lookups_reference.
  destruct (decide (k = k')) as [->|Hne]; [apply prefix_app_r|]; reflexivity.
Qed.

Lemma declare_named_grows p nm rules st :
  grows st (declare_named p nm rules st).1.
Proof.
  unfold declare_named.
  destruct (analyze_rules (ir_classes st) rules) as [crs ds].
  destruct (ir_named (add_diags ds st) !! nm) as [i|] eqn:E.
  - simpl. eapply grows_trans; apply add_diags_grows.
  - destruct (declare (Named nm) crs (add_diags ds st)) as [st' idx] eqn:D.
    simpl. eapply grows_trans; [apply add_diags_grows|].
    replace st' with (declare (Named nm) crs (add_diags ds st)).1
      by now rewrite D.
    apply declare_grows.
Qed.

Lemma analyze_item_grows tag st cur it :
  grows st (analyze_item tag (st, cur) it).1.
Proof.
  destruct it as [s|l|p rules|p nm|p nm rules]; simpl;
    try apply grows_refl.
  - destruct (analyze_rules (ir_classes st) rules) as [crs ds].
    simpl. eapply grows_trans; [apply add_diags_grows|].
    eapply grows_trans; [apply (declare_grows (Inline tag p) crs)|].
    apply reference_grows.
  - destruct (ir_named st !! nm); simpl;
      [apply reference_grows | apply add_diags_grows].
  - pose proof (declare_named_grows p nm rules st) as G.
    destruct (declare_named p nm rules st) as [st' [idx|]]; simpl in *;
      [eapply grows_trans; [exact G | apply reference_grows] | exact G].
Qed.

Lemma analyze_items_grows tag items : forall st cur,
  grows st (foldl (analyze_item tag) (st, cur) items).1.
Proof.
  induction items as [|it items IH]; intros st cur; cbn [foldl].
  - apply grows_refl.
  - pose proof (analyze_item_grows tag st cur it) as G.
    destruct (analyze_item tag (st, cur) it) as [st' cur'].
    eapply grows_trans; [exact G | apply IH].
Qed.

Lemma analyze_statement_grows st s : grows st (analyze_statement st s).
Proof.
  destruct s as [sc l|p nm c|p nm rules|tag items]; simpl.
  - apply grows_refl.
  - destruct (resolve_class (ir_classes st) c); [|apply add_diags_grows].
    destruct (ir_classes st !! nm); [apply add_diags_grows|].
    split; [|split]; reflexivity.
  - apply declare_named_grows.
  - apply analyze_items_grows.
Qed.

Lemma analyze_from_grows prog : forall st, grows st (analyze_from st prog).
Proof.
  unfold analyze_from.
  induction prog as [|s prog IH]; intros st; cbn [foldl].
  - apply grows_refl.
  - eapply grows_trans; [apply analyze_statement_grows | apply IH].
Qed.

Lemma grows_diag st st' d : grows st st' -> d ∈ ir_diags st -> d ∈ ir_diags st'.
Proof. intros [[ds ->] _] H. apply elem_of_app. now left. Qed.

Lemma grows_lookups st st' :
  grows st st' -> ir_lookups st `prefix_of` ir_lookups st'.
Proof. now intros (_ & ? & _). Qed.

Lemma grows_no_errors st st' :
  grows st st' -> has_errors (ir_diags st') = false ->
  has_errors (ir_diags st) = false.
Proof.
  intros [[ds E] _]. rewrite E. unfold has_errors. rewrite existsb_app.
  now intros [? _]%orb_false_iff.
Qed.

(** ** Every rule of the program is analyzed and its error reported *)

Lemma analyze_rules_reports env rules r d :
  r ∈ rules -> analyze_rule env r = inl d ->
  d ∈ (analyze_rules env rules).2.
Proof.
  induction rules as [|r0 rules IH]; [now intros ?%elem_of_nil|].
  intros [->|Hin]%elem_of_cons Hr; cbn [analyze_rules];
    destruct (analyze_rules env rules) as [crs ds].
  - rewrite Hr. simpl. apply elem_of_cons. now left.
  - specialize (IH Hin Hr). simpl in IH.
    destruct (analyze_rule env r0); simpl; [apply elem_of_cons; now right | exact IH].
Qed.

Lemma declare_named_reports p nm rules st d :
  d ∈ (analyze_rules (ir_classes st) rules).2 ->
  d ∈ ir_diags (declare_named p nm rules st).1.
Proof.
  unfold declare_named.
  destruct (analyze_rules (ir_classes st) rules) as [crs ds]. simpl. intros Hd.
  destruct (ir_named st !! nm); simpl; rewrite ?elem_of_app; auto.
Qed.

Section Reports.
Variables (r : Rule) (d : Diagnostic).
Hypothesis rule_fails : forall env, analyze_rule env r = inl d.

Lemma analyze_item_reports tag st cur it :
  r ∈ item_rules it -> d ∈ ir_diags (analyze_item tag (st, cur) it).1.
Proof using rule_fails.
  destruct it as [s|l|p rules|p nm|p nm rules]; simpl;
    try now intros ?%elem_of_nil.
  - intros Hin.
    pose proof (analyze_rules_reports (ir_classes st) rules r d Hin
                  (rule_fails _)) as Hd.
    destruct (analyze_rules (ir_classes st) rules) as [crs ds]. simpl in *.
    apply elem_of_app. now right.
  - intros Hin.
    pose proof (declare_named_reports p nm rules st d
                  (analyze_rules_reports _ rules r d Hin (rule_fails _))) as Hd.
    destruct (declare_named p nm rules st) as [st' [idx|]]; exact Hd.
Qed.

Lemma analyze_items_reports tag items : forall st cur,
  r ∈ concat (item_rules <$> items) ->
  d ∈ ir_diags (foldl (analyze_item tag) (st, cur) items).1.
Proof using rule_fails.
  induction items as [|it items IH]; intros st cur; cbn [foldl fmap list_fmap concat].
  - now intros ?%elem_of_nil.
  - intros [Hin|Hin]%elem_of_app.
    + pose proof (analyze_item_reports tag st cur it Hin) as Hd.
      destruct (analyze_item tag (st, cur) it) as [st' cur'].
      eapply grows_diag; [apply analyze_items_grows | exact Hd].
    + destruct (analyze_item tag (st, cur) it) as [st' cur']. now apply IH.
Qed.

Lemma analyze_statement_reports st s :
  r ∈ statement_rules s -> d ∈ ir_diags (analyze_statement st s).
Proof using rule_fails.
  destruct s as [sc l|p nm c|p nm rules|tag items]; simpl;
    try now intros ?%elem_of_nil.
  - intros Hin. apply declare_named_reports.
    now apply analyze_rules_reports with (r := r).
  - apply analyze_items_reports.
Qed.

Lemma analyze_from_reports prog : forall st,
  r ∈ program_rules prog -> d ∈ ir_diags (analyze_from st prog).
Proof using rule_fails.
  unfold analyze_from, program_rules.
  induction prog as [|s prog IH]; intros st; cbn [foldl fmap list_fmap concat].
  - now intros ?%elem_of_nil.
  - intros [Hin|Hin]%elem_of_app.
    + eapply grows_diag; [apply analyze_from_grows|].
      now apply analyze_statement_reports.
    + now apply IH.
Qed.

End Reports.

Lemma has_errors_elem d ds :
  d ∈ ds -> severity d = SevError -> has_errors ds = true.
Proof.
  intros Hin Hs. apply existsb_exists. exists d.
  split; [now apply list_elem_of_In|].
  unfold is_error. now apply bool_decide_eq_true_2.
Qed.

(** ** Indices and names stay sound *)

Lemma denotes_prefix st st' idx o :
  ir_lookups st `prefix_of` ir_lookups st' ->
  denotes st idx o -> denotes st' idx o.
Proof.
  intros Hp (l & Hl & Hi & Ho). exists l. split; [|auto].
  eapply prefix_lookup_Some; eauto.
Qed.

Lemma named_ok_prefix st st' :
  ir_named st' = ir_named st -> ir_lookups st `prefix_of` ir_lookups st' ->
  named_ok st -> named_ok st'.
Proof.
  intros En Hp H nm idx Hn. rewrite En in Hn.
  eapply denotes_prefix; eauto.
Qed.

Lemma declare_sound o crs st :
  indexed st -> named_ok st ->
  indexed (declare o crs st).1 /\ named_ok (declare o crs st).1 /\
  denotes (declare o crs st).1 (declare o crs st).2 o /\
  origins (declare o crs st).1 = (origins st ++ [o])%list.
Proof.
  intros Hi Hn.
  assert (denotes (declare o crs st).1 (length (ir_lookups st)) o) as Hd.
  { exists {| lk_index := length (ir_lookups st); lk_origin := o;
               lk_rules := crs |}.
    simpl. split; [|split; reflexivity].
    rewrite lookup_app_r by lia. now rewrite Nat.sub_diag. }
  split; [|split; [|split]].
  - intros i l. simpl. intros H.
    apply lookup_app_Some in H as [H|[Hle H]]; [now apply Hi|].
    destruct (i - length (ir_lookups st))%nat as [|n] eqn:E; simpl in H;
      [|discriminate].
    injection H as <-. simpl. lia.
  - intros nm idx. destruct o as [nm'|tag p]; simpl.
    + intros H. apply lookup_insert_Some in H as [[-> <-]|[Hne H]].
      * exact Hd.
      * eapply denotes_prefix; [|apply (Hn _ _ H)].
        simpl. apply prefix_app_r. reflexivity.
    + intros H. eapply denotes_prefix; [|apply (Hn _ _ H)].
      simpl. apply prefix_app_r. reflexivity.
  - exact Hd.
  - unfold origins. simpl. now rewrite fmap_app.
Qed.

Lemma add_diags_sound ds st :
  indexed st -> named_ok st ->
  indexed (add_diags ds st) /\ named_ok (add_diags ds st).
Proof. intros Hi Hn. split; assumption. Qed.

Lemma reference_sound k idx st :
  indexed st -> named_ok st ->
  indexed (reference k idx st) /\ named_ok (reference k idx st).
Proof. intros Hi Hn. split; assumption. Qed.

Lemma declare_named_sound p nm rules st :
  indexed st -> named_ok st ->
  indexed (declare_named p nm rules st).1 /\
  named_ok (declare_named p nm rules st).1.
Proof.
  intros Hi Hn. unfold declare_named.
  destruct (analyze_rules (ir_classes st) rules) as [crs ds].
  destruct (ir_named (add_diags ds st) !! nm) as [i|] eqn:E.
  - simpl. split; assumption.
  - pose proof (declare_sound (Named nm) crs (add_diags ds st) Hi Hn)
      as (H1 & H2 & _).
    destruct (declare (Named nm) crs (add_diags ds st)) as [st' idx].
    simpl in *. auto.
Qed.

Lemma analyze_item_sound tag st cur it :
  indexed st -> named_ok st ->
  indexed (analyze_item tag (st, cur) it).1 /\
  named_ok (analyze_item tag (st, cur) it).1.
Proof.
  intros Hi Hn.
  destruct it as [s|l|p rules|p nm|p nm rules]; simpl; auto.
  - destruct (analyze_rules (ir_classes st) rules) as [crs ds].
    pose proof (declare_sound (Inline tag p) crs (add_diags ds st) Hi Hn)
      as (H1 & H2 & _).
    split; assumption.
  - destruct (ir_named st !! nm); simpl; auto.
  - pose proof (declare_named_sound p nm rules st Hi Hn) as [H1 H2].
    destruct (declare_named p nm rules st) as [st' [idx|]]; simpl in *; auto.
Qed.

Lemma analyze_items_sound tag items : forall st cur,
  indexed st -> named_ok st ->
  indexed (foldl (analyze_item tag) (st, cur) items).1 /\
  named_ok (foldl (analyze_item tag) (st, cur) items).1.
Proof.
  induction items as [|it items IH]; intros st cur Hi Hn; cbn [foldl]; auto.
  pose proof (analyze_item_sound tag st cur it Hi Hn) as [H1 H2].
  destruct (analyze_item tag (st, cur) it) as [st' cur']. now apply IH.
Qed.

Lemma analyze_statement_sound st s :
  indexed st -> named_ok st ->
  indexed (analyze_statement st s) /\ named_ok (analyze_statement st s).
Proof.
  intros Hi Hn.
  destruct s as [sc l|p nm c|p nm rules|tag items]; simpl; auto.
  - destruct (resolve_class (ir_classes st) c); auto.
    destruct (ir_classes st !! nm); auto.
  - now apply declare_named_sound.
  - now apply analyze_items_sound.
Qed.

Lemma analyze_from_sound prog : forall st,
  indexed st -> named_ok st ->
  indexed (analyze_from st prog) /\ named_ok (analyze_from st prog).
Proof.
  unfold analyze_from.
  induction prog as [|s prog IH]; intros st Hi Hn; cbn [foldl]; auto.
  destruct (analyze_statement_sound st s Hi Hn). now apply IH.
Qed.

Lemma empty_ir_sound : indexed empty_ir /\ named_ok empty_ir.
Proof.
  split.
  - intros i l H. simpl in H. now rewrite lookup_nil in H.
  - intros nm idx H. simpl in H. now rewrite lookup_empty in H.
Qed.

(** ** The lookup lists follow the uses in the source *)

Lemma under_app k h1 h2 : under k (h1 ++ h2) = (under k h1 ++ under k h2)%list.
Proof. unfold under. now rewrite filter_app, fmap_app. Qed.

Lemma under_single k k' o :
  under k [(k', o)] = if decide (k' = k) then [o] else [].
Proof.
  unfold under. rewrite filter_cons. simpl.
  destruct (decide (k' = k)); reflexivity.
Qed.

Lemma tracks_grows st st' h :
  tracks st h -> ir_features st' = ir_features st ->
  ir_lookups st `prefix_of` ir_lookups st' -> tracks st' h.
Proof.
  intros Ht Ef Hp k. unfold feature_lookups. rewrite Ef.
  eapply Forall2_impl; [apply Ht|].
  intros idx o. now apply denotes_prefix.
Qed.

Lemma tracks_reference k idx o st h :
  tracks st h -> denotes st idx o ->
  tracks (reference k idx st) (h ++ [(k, o)]).
Proof.
  intros Ht Hd k'.
  rewrite under_app, under_single, feature_lookups_reference.
  destruct (decide (k = k')) as [->|Hne].
  - apply Forall2_app; [apply Ht|]. constructor; [exact Hd | constructor].
  - rewrite app_nil_r. apply Ht.
Qed.

Lemma has_errors_snoc ds k msg p : has_errors (ds ++ [error k msg p]) = true.
Proof.
  unfold has_errors. rewrite existsb_app. apply orb_true_iff. now right.
Qed.

Lemma analyze_item_cursor tag st cur it :
  (analyze_item tag (st, cur) it).2 = next_cursor cur it.
Proof.
  destruct it as [s|l|p rules|p nm|p nm rules]; simpl; try reflexivity.
  - now destruct (analyze_rules (ir_classes st) rules).
  - now destruct (ir_named st !! nm).
  - now destruct (declare_named p nm rules st) as [st' [idx|]].
Qed.

(** A named block that raises no error is declared under its name. *)
Lemma declare_named_clean p nm rules st :
  indexed st -> named_ok st ->
  has_errors (ir_diags (declare_named p nm rules st).1) = false ->
  exists idx,
    (declare_named p nm rules st).2 = Some idx /\
    denotes (declare_named p nm rules st).1 idx (Named nm) /\
    origins (declare_named p nm rules st).1 = (origins st ++ [Named nm])%list /\
    ir_features (declare_named p nm rules st).1 = ir_features st.
Proof.
  intros Hi Hn. unfold declare_named.
  destruct (analyze_rules (ir_classes st) rules) as [crs ds].
  destruct (ir_named (add_diags ds st) !! nm) as [i|] eqn:E.
  - simpl. rewrite has_errors_snoc. discriminate.
  - pose proof (declare_sound (Named nm) crs (add_diags ds st) Hi Hn)
      as (_ & _ & Hd & Ho).
    destruct (declare (Named nm) crs (add_diags ds st)) as [st' idx] eqn:D.
    simpl in *. intros _. exists idx. repeat split; auto.
    injection D as <- _. reflexivity.
Qed.

Lemma analyze_item_tracks tag st cur it h :
  indexed st -> named_ok st -> tracks st h ->
  has_errors (ir_diags (analyze_item tag (st, cur) it).1) = false ->
  tracks (analyze_item tag (st, cur) it).1 (h ++ item_reference tag cur it) /\
  origins (analyze_item tag (st, cur) it).1
  = (origins st ++ item_declaration tag it)%list.
Proof.
  intros Hi Hn Ht.
  destruct it as [s|l|p rules|p nm|p nm rules]; simpl.
  - intros _. now rewrite !app_nil_r.
  - intros _. now rewrite !app_nil_r.
  - destruct (analyze_rules (ir_classes st) rules) as [crs ds]. simpl. intros _.
    pose proof (declare_sound (Inline tag p) crs (add_diags ds st) Hi Hn)
      as (_ & _ & Hd & Ho).
    split; [|exact Ho].
    apply tracks_reference; [|exact Hd].
    eapply tracks_grows; [exact Ht | reflexivity |].
    simpl. apply prefix_app_r. reflexivity.
  - destruct (ir_named st !! nm) as [idx|] eqn:E; simpl.
    + intros _. split; [|now rewrite app_nil_r].
      apply tracks_reference; [exact Ht | now apply Hn].
    + rewrite has_errors_snoc. discriminate.
  - intros He.
    assert (has_errors (ir_diags (declare_named p nm rules st).1) = false) as He'.
    { destruct (declare_named p nm rules st) as [st' [idx|]]; exact He. }
    destruct (declare_named_clean p nm rules st Hi Hn He')
      as (idx & E2 & Hd & Ho & Hf).
    pose proof (declare_named_grows p nm rules st) as G.
    destruct (declare_named p nm rules st) as [st' o'] eqn:D.
    simpl in *. subst o'. split; [|exact Ho].
    apply tracks_reference; [|exact Hd].
    eapply tracks_grows; [exact Ht | exact Hf | now apply grows_lookups].
Qed.

Lemma analyze_items_tracks tag items : forall st cur h,
  indexed st -> named_ok st -> tracks st h ->
  has_errors (ir_diags (foldl (analyze_item tag) (st, cur) items).1) = false ->
  tracks (foldl (analyze_item tag) (st, cur) items).1
    (h ++ item_references tag cur items) /\
  origins (foldl (analyze_item tag) (st, cur) items).1
  = (origins st ++ item_declarations tag items)%list.
Proof.
  unfold item_declarations.
  induction items as [|it items IH]; intros st cur h Hi Hn Ht;
    cbn [foldl item_references fmap list_fmap concat].
  - intros _. now rewrite !app_nil_r.
  - intros He.
    pose proof (analyze_item_sound tag st cur it Hi Hn) as [Hi' Hn'].
    pose proof (analyze_item_cursor tag st cur it) as Hc.
    pose proof (analyze_item_tracks tag st cur it h Hi Hn Ht) as Hstep.
    destruct (analyze_item tag (st, cur) it) as [st' cur'] eqn:E.
    simpl in Hi', Hn', Hc, Hstep. subst cur'.
    destruct Hstep as [Ht' Ho'].
    { eapply grows_no_errors; [apply analyze_items_grows | exact He]. }
    destruct (IH st' (next_cursor cur it) _ Hi' Hn' Ht' He) as [Ht'' Ho''].
    split; [now rewrite app_assoc | now rewrite Ho'', Ho', app_assoc].
Qed.

Lemma analyze_statement_tracks st s h :
  indexed st -> named_ok st -> tracks st h ->
  has_errors (ir_diags (analyze_statement st s)) = false ->
  tracks (analyze_statement st s) (h ++ statement_references s) /\
  origins (analyze_statement st s) = (origins st ++ statement_declarations s)%list.
Proof.
  intros Hi Hn Ht.
  destruct s as [sc l|p nm c|p nm rules|tag items]; simpl.
  - intros _. now rewrite !app_nil_r.
  - intros _. rewrite !app_nil_r.
    destruct (resolve_class (ir_classes st) c); [|now split].
    destruct (ir_classes st !! nm); now split.
  - intros He.
    destruct (declare_named_clean p nm rules st Hi Hn He)
      as (idx & _ & _ & Ho & Hf).
    split; [|exact Ho]. rewrite app_nil_r.
    eapply tracks_grows; [exact Ht | exact Hf |].
    apply grows_lookups, declare_named_grows.
  - now apply analyze_items_tracks.
Qed.

Lemma analyze_from_tracks prog : forall st h,
  indexed st -> named_ok st -> tracks st h ->
  has_errors (ir_diags (analyze_from st prog)) = false ->
  tracks (analyze_from st prog) (h ++ references prog) /\
  origins (analyze_from st prog) = (origins st ++ declarations prog)%list.
Proof.
  unfold analyze_from, references, declarations.
  induction prog as [|s prog IH]; intros st h Hi Hn Ht;
    cbn [foldl fmap list_fmap concat].
  - intros _. now rewrite !app_nil_r.
  - intros He.
    destruct (analyze_statement_sound st s Hi Hn) as [Hi' Hn'].
    destruct (analyze_statement_tracks st s h Hi Hn Ht) as [Ht' Ho'].
    { eapply grows_no_errors; [apply analyze_from_grows | exact He]. }
    destruct (IH _ _ Hi' Hn' Ht' He) as [Ht'' Ho''].
    split; [now rewrite app_assoc | now rewrite Ho'', Ho', app_assoc].
Qed.

Lemma analyze_app pre post : analyze (pre ++ post) = analyze_from (analyze pre) post.
Proof. unfold analyze, analyze_from. apply foldl_app. Qed.

(** C3.  Two classes used pairwise in a rule must have equal length, or
    one side must be a singleton.  A pair that is neither is never paired
    (no prefix of the longer class is taken): the rule is answered with a
    [SemanticError] at its position, the error is in the report of the
    whole analysis, and the compile counts as failed.  A pair that is
    accepted keeps every glyph of the side that is not a singleton. *)
Theorem class_length_mismatch_is_semantic_error :
  (forall a b, ~ compatible a b -> pair_classes a b = None) /\
  (forall a b ps,
      pair_classes a b = Some ps ->
      compatible a b /\
      ((length a = length b /\ ps.*1 = a /\ ps.*2 = b) \/
       (exists x, a = [x] /\ ps = pair x <$> b) \/
       (exists y, b = [y] /\ ps = (fun x => (x, y)) <$> a))) /\
  (forall env p target replacement a b,
      resolve_class env target = Some a ->
      resolve_class env replacement = Some b ->
      ~ compatible a b ->
      analyze_rule env (SubstClass p target replacement)
      = inl (error SemanticError "incompatible class lengths" p)) /\
  (forall prog p target replacement a b,
      SubstClass p target replacement ∈ program_rules prog ->
      resolve_class ∅ target = Some a ->
      resolve_class ∅ replacement = Some b ->
      ~ compatible a b ->
      error SemanticError "incompatible class lengths" p ∈ ir_diags (analyze prog) /\
      has_errors (ir_diags (analyze prog)) = true).
Proof.
  split; [exact pair_classes_mismatch|].
  split; [intros a b ps H; split;
          [eapply pair_classes_compatible | apply pair_classes_shape]; eauto|].
  split; [exact analyze_rule_mismatch|].
  intros prog p target replacement a b Hin Ha Hb Hc.
  assert (error SemanticError "incompatible class lengths" p
            ∈ ir_diags (analyze prog)) as Hd.
  { apply (analyze_from_reports (SubstClass p target replacement)); [|exact Hin].
    intros env. apply analyze_rule_mismatch with (a := a) (b := b);
      auto using resolve_class_closed. }
  split; [exact Hd|]. eapply has_errors_elem; [exact Hd | reflexivity].
Qed.


Lemma class_length_mismatch_is_semantic_error_witness :
  error SemanticError "incompatible class lengths" (at_line 2)
    ∈ ir_diags (analyze mismatched_source) /\
  has_errors (ir_diags (analyze mismatched_source)) = true.
Proof.
  destruct class_length_mismatch_is_semantic_error as (_ & _ & _ & H).
  apply (H mismatched_source (at_line 2)
           (ClassLit ["a"; "b"; "c"]) (ClassLit ["A.sc"; "B.sc"])
           ["a"; "b"; "c"] ["A.sc"; "B.sc"]).
  - unfold program_rules, mismatched_source. simpl. apply elem_of_cons. now left.
  - reflexivity.
  - reflexivity.
  - unfold compatible. simpl. lia.
Defined.

(** The minimal end-to-end case of section 8: one lookup, number 0, of
    the ligature rule, used by [liga] under DFLT/dflt, and no diagnostic. *)
Example minimal_case_ir :
  ir_lookups (analyze minimal_case)
  = [ {| lk_index := 0; lk_origin := Inline "liga" (at_line 3);
         lk_rules := [CLigature ["f"; "f"] "f_f"] |} ] /\
  feature_lookups (analyze minimal_case) ("liga", ("DFLT", "dflt")) = [0%nat] /\
  ir_diags (analyze minimal_case) = [].
Proof. split; [|split]; reflexivity. Qed.

(** C6.  The analyzer gives every lookup the index of its place in the
    order of declaration, inline lookups of feature blocks included: a
    lookup sits at its own index, lookups and lookup lists are only ever
    added to at the end as more of the source is read, and when the
    analysis raises no error the lookups are the declarations of the
    source in source order and the list under every feature and (script,
    language) pair names, entry by entry, the lookups used under that pair
    in source order. *)
Theorem lookup_order_is_declaration_order (prog : list Statement) :
  (forall i l, ir_lookups (analyze prog) !! i = Some l -> lk_index l = i) /\
  (forall pre post,
      prog = (pre ++ post)%list ->
      ir_lookups (analyze pre) `prefix_of` ir_lookups (analyze prog) /\
      forall k,
        feature_lookups (analyze pre) k `prefix_of` feature_lookups (analyze prog) k) /\
  (has_errors (ir_diags (analyze prog)) = false ->
   origins (analyze prog) = declarations prog /\
   forall k,
     Forall2 (denotes (analyze prog))
       (feature_lookups (analyze prog) k) (references_under k prog)).
Proof.
  destruct empty_ir_sound as [Hi Hn].
  split; [|split].
  - apply (analyze_from_sound prog empty_ir Hi Hn).
  - intros pre post ->. rewrite analyze_app.
    destruct (analyze_from_grows post (analyze pre)) as (_ & Hl & Hf). auto.
  - intros He.
    destruct (analyze_from_tracks prog empty_ir [] Hi Hn) as [Ht Ho].
    + intros k. unfold feature_lookups. simpl. rewrite lookup_empty. constructor.
    + exact He.
    + split; [exact Ho|]. intros k. apply Ht.
Qed.

Lemma lookup_order_is_declaration_order_witness :
  origins (analyze sample_source)
  = [Named "SMCP"; Inline "liga" (at_line 7); Named "DOTS"; Inline "liga" (at_line 14)] /\
  feature_lookups (analyze sample_source) ("liga", ("DFLT", "dflt")) = [1; 0]%nat /\
  feature_lookups (analyze sample_source) ("liga", ("latn", "dflt")) = [2; 0; 3]%nat.
Proof.
  destruct (lookup_order_is_declaration_order sample_source) as (_ & _ & H).
  destruct (H eq_refl) as [Ho _].
  split; [rewrite Ho; reflexivity|]. split; reflexivity.
Defined.

End AnalyzerSpec.

(* ===================================================================== *)
(** * Properties of the variable-value resolver                           *)
(* ===================================================================== *)

Module ResolverSpec.
Import FeatureCompiler FeatureCompiler.Resolver.

Local Open Scope string_scope.

Lemma in_range_true ax c :
  in_range ax c = true <-> (axis_min ax <= c /\ c <= axis_max ax)%Q.
Proof.
  unfold in_range. rewrite andb_true_iff, !Qle_bool_iff. reflexivity.
Qed.

Lemma coordinate_ok_within ds tc :
  coordinate_ok ds tc = true <-> within_range ds tc.
Proof.
  unfold coordinate_ok, within_range. split.
  - destruct (find_axis ds tc.1) as [ax|]; [|discriminate].
    intros H. exists ax. split; [reflexivity | now apply in_range_true].
  - intros (ax & -> & H). now apply in_range_true.
Qed.

Lemma coordinate_out_of_range ds tc :
  out_of_range ds tc -> coordinate_ok ds tc = false.
Proof.
  intros (ax & E & H). unfold coordinate_ok. rewrite E.
  apply not_true_is_false. intros [H1 H2]%in_range_true.
  destruct H as [H|H]; [apply (Qlt_not_le _ _ H H1) | apply (Qlt_not_le _ _ H H2)].
Qed.

Lemma resolve_fails ds v loc value tc :
  (loc, value) ∈ vv_at v -> tc ∈ loc -> coordinate_ok ds tc = false ->
  resolve ds v
  = inl (error VariableFontError "location outside the designspace" (vv_pos v)).
Proof.
  intros Hl Ht Hc. unfold resolve.
  destruct (forallb (fun lv => location_ok ds lv.1) (vv_at v)) eqn:E;
    [|reflexivity].
  exfalso. rewrite forallb_forall in E.
  specialize (E (loc, value)). rewrite <- list_elem_of_In in E.
  specialize (E Hl). unfold location_ok in E. simpl in E.
  rewrite forallb_forall in E. specialize (E tc).
  rewrite <- list_elem_of_In in E. specialize (E Ht). congruence.
Qed.

Lemma resolve_succeeds ds v :
  (forall loc value tc,
      (loc, value) ∈ vv_at v -> tc ∈ loc -> coordinate_ok ds tc = true) ->
  resolve ds v
  = inr {| ds_default := vv_default v;
           ds_deltas :=
             (fun lv => (lv.1, (lv.2 - vv_default v)%Q)) <$> vv_at v |}.
Proof.
  intros H. unfold resolve.
  destruct (forallb (fun lv => location_ok ds lv.1) (vv_at v)) eqn:E;
    [reflexivity|].
  exfalso. apply not_true_iff_false in E. apply E.
  apply forallb_forall. intros [loc value] Hl%list_elem_of_In.
  apply forallb_forall. intros tc Ht%list_elem_of_In. eauto.
Qed.

Lemma resolve_deltas ds v r :
  resolve ds v = inr r ->
  ds_default r = vv_default v /\
  ds_deltas r = (fun lv => (lv.1, (lv.2 - vv_default v)%Q)) <$> vv_at v.
Proof.
  unfold resolve.
  destruct (forallb (fun lv => location_ok ds lv.1) (vv_at v));
    [|discriminate].
  intros [= <-]. split; reflexivity.
Qed.

(** C5.  A variable value literal that names a location with a
    coordinate outside the declared range of its axis makes the resolver
    fail with [VariableFontError]; no result is built from a coordinate
    moved into range, since a result, whenever there is one, carries the
    locations exactly as they were written.  A literal whose locations are
    all within range resolves: the result is its default and exactly one
    delta per explicit location, in order, the value there less the
    default. *)
Theorem out_of_range_is_variable_font_error (ds : Designspace) (v : VarValue) :
  (forall loc value tc,
      (loc, value) ∈ vv_at v -> tc ∈ loc -> out_of_range ds tc ->
      exists d,
        resolve ds v = inl d /\ kind d = VariableFontError /\
        severity d = SevError /\ location d = vv_pos v) /\
  (forall r, resolve ds v = inr r -> (ds_deltas r).*1 = (vv_at v).*1) /\
  ((forall loc value tc,
       (loc, value) ∈ vv_at v -> tc ∈ loc -> within_range ds tc) ->
   exists r,
     resolve ds v = inr r /\
     ds_default r = vv_default v /\
     length (ds_deltas r) = length (vv_at v) /\
     (forall i loc value,
         vv_at v !! i = Some (loc, value) ->
         ds_deltas r !! i = Some (loc, (value - vv_default v)%Q))).
Proof.
  split; [|split].
  - intros loc value tc Hl Ht Ho.
    exists (error VariableFontError "location outside the designspace" (vv_pos v)).
    split; [|split; [|split]; reflexivity].
    eapply resolve_fails; eauto using coordinate_out_of_range.
  - intros r [_ ->]%resolve_deltas.
    rewrite <- list_fmap_compose. reflexivity.
  - intros H. eexists. split; [|split; [|split]].
    + apply resolve_succeeds. intros loc value tc Hl Ht.
      apply coordinate_ok_within. eauto.
    + reflexivity.
    + simpl. now rewrite length_fmap.
    + intros i loc value Hi. simpl. rewrite list_lookup_fmap, Hi. reflexivity.
Qed.

Lemma out_of_range_is_variable_font_error_witness :
  (exists d,
      resolve sample_designspace overshooting_value = inl d /\
      kind d = VariableFontError) /\
  (exists r,
      resolve sample_designspace sample_value = inr r /\
      length (ds_deltas r) = 2%nat).
Proof.
  split.
  - destruct (out_of_range_is_variable_font_error sample_designspace
                overshooting_value) as (H & _).
    destruct (H [("wght", 1000%Q)] 640%Q ("wght", 1000%Q))
      as (d & Hd & Hk & _).
    + unfold overshooting_value. simpl. apply elem_of_cons. right.
      apply elem_of_cons. now left.
    + apply elem_of_cons. now left.
    + eexists. split; [reflexivity|]. right. reflexivity.
    + exists d. auto.
  - destruct (out_of_range_is_variable_font_error sample_designspace
                sample_value) as (_ & _ & H).
    destruct H as (r & Hr & _ & Hl & _).
    + intros loc value tc Hl Ht. apply coordinate_ok_within.
      unfold sample_value in Hl. simpl in Hl.
      repeat (apply elem_of_cons in Hl as [Hl|Hl];
              [injection Hl as -> ->;
               repeat (apply elem_of_cons in Ht as [->|Ht]; [reflexivity|]);
               now apply elem_of_nil in Ht|]).
      now apply elem_of_nil in Hl.
    + exists r. auto.
Defined.

End ResolverSpec.

(* ===================================================================== *)
(** * Further properties of the command dispatcher                        *)
(* ===================================================================== *)

Module DispatchRawSpec.
Import Dispatch DispatchRaw.

Local Open Scope string_scope.
Local Open Scope Z_scope.
Local Open Scope prog_scope.

(** ** The loops over the sentinel-terminated array *)

Lemma drop_cons_lookup {A} (l : list A) i x rest :
  drop i l = x :: rest -> l !! i = Some x /\ drop (S i) l = rest.
Proof.
  intros H. assert (l !! i = Some x) as Hi.
  { rewrite <- (Nat.add_0_r i), <- lookup_drop, H. reflexivity. }
  split; [exact Hi|]. rewrite (drop_S _ _ _ Hi) in H. now injection H.
Qed.

Lemma strcmp_differs a b : (strcmp a b =? 0) = false -> a <> b.
Proof.
  rewrite DispatchSpec.strcmp_eqb. intros H ->.
  now rewrite bool_decide_eq_true_2 in H.
Qed.

Lemma registered_cell arr : forall i c,
  registered arr !! i = Some c -> arr !! i = Some (cell c).
Proof.
  induction arr as [|[[n|] ab [f|]] arr IH]; intros i c; simpl;
    try (rewrite lookup_nil; discriminate).
  destruct i as [|i]; simpl; [intros [= <-]; reflexivity | apply IH].
Qed.

Lemma find_command_loop_spec arr nm : forall cells i fuel,
  drop i arr = cells -> terminated cells = true ->
  (length cells <= fuel)%nat ->
  match find_command_from (registered cells) nm with
  | None => find_command_loop arr nm fuel i = Done None
  | Some c =>
      exists j,
        find_command_loop arr nm fuel i = Done (Some (i + j)%nat) /\
        registered cells !! j = Some c /\
        Forall (fun c' => ~ answers_to c' nm) (take j (registered cells))
  end.
Proof.
  induction cells as [|rc rest IH]; intros i fuel Hd Ht Hf; [discriminate|].
  apply drop_cons_lookup in Hd as [Hi Hd].
  destruct fuel as [|fuel]; [simpl in Hf; lia|].
  cbn [find_command_loop]. rewrite Hi.
  cbn [terminated] in Ht. cbn [registered].
  destruct (raw_name rc) as [n|]; [|reflexivity].
  destruct (raw_cpp_main rc) as [f|]; [|discriminate].
  cbn [find_command_from name abbrev].
  assert (length rest <= fuel)%nat as Hf' by (simpl in Hf; lia).
  specialize (IH (S i) fuel Hd Ht Hf').
  destruct (strcmp n nm =? 0) eqn:E1.
  { exists 0%nat. rewrite Nat.add_0_r. repeat split. constructor. }
  apply strcmp_differs in E1.
  assert (forall a, raw_abbrev rc = Some a -> a <> nm ->
          ~ answers_to {| name := n; abbrev := raw_abbrev rc; cpp_main := f |} nm)
    as Hno.
  { intros a Ha Hne [H|H]; simpl in H; [auto|]. rewrite Ha in H.
    injection H as ->. auto. }
  assert (raw_abbrev rc = None ->
          ~ answers_to {| name := n; abbrev := raw_abbrev rc; cpp_main := f |} nm)
    as Hno'.
  { intros Ha [H|H]; simpl in H; [auto|]. rewrite Ha in H. discriminate. }
  destruct (raw_abbrev rc) as [a|] eqn:Ea.
  - destruct (strcmp a nm =? 0) eqn:E2.
    { exists 0%nat. rewrite Nat.add_0_r. repeat split. constructor. }
    apply strcmp_differs in E2.
    destruct (find_command_from (registered rest) nm) as [c|]; [|exact IH].
    destruct IH as (j & Hl & Hr & Hpre). exists (S j).
    rewrite Hl. replace (S i + j)%nat with (i + S j)%nat by lia.
    repeat split; [exact Hr|]. cbn [take]. constructor; [|exact Hpre].
    now apply (Hno a).
  - destruct (find_command_from (registered rest) nm) as [c|]; [|exact IH].
    destruct IH as (j & Hl & Hr & Hpre). exists (S j).
    rewrite Hl. replace (S i + j)%nat with (i + S j)%nat by lia.
    repeat split; [exact Hr|]. cbn [take]. constructor; [|exact Hpre].
    now apply Hno'.
Qed.




Lemma print_help_raw_done : print_help_raw = Done print_help.
Proof. reflexivity. Qed.

Lemma find_command_raw_spec nm :
  match find_command nm with
  | None => find_command_raw nm = Done None
  | Some c =>
      exists i,
        find_command_raw nm = Done (Some i) /\
        commands_array !! i = Some (cell c) /\ commands !! i = Some c
  end.
Proof.
  pose proof (find_command_loop_spec commands_array nm commands_array 0
                (length commands_array) eq_refl eq_refl (le_n _)) as H.
  change (registered commands_array) with commands in H.
  fold (find_command nm) in H. fold (find_command_raw nm) in H.
  destruct (find_command nm) as [c|]; [|exact H].
  destruct H as (j & Hl & Hr & _). exists j. split; [exact Hl|].
  split; [|exact Hr]. now apply registered_cell.
Qed.

(** ** The array-level code against the list-level code *)





(** X3.  Called as the C runtime calls it, with [argc] the number of
    entries of [argv], [main] never reads [argv] or the command array out
    of bounds and never calls through a null entry point: the read of
    [argv[1]] is guarded by the test on [argc], and every entry that
    [find_command] can return has an entry point.  What it does is what
    the list-level [main] does. *)
Theorem main_raw_is_safe (argc : Z) (argv : list string) :
  argc = Z.of_nat (length argv) ->
  main_raw argc argv = Done (main argv).
Proof.
  intros ->. unfold main_raw, main.
  destruct (Z.ltb_spec (Z.of_nat (length argv)) 2) as [H|H]; [reflexivity|].
  destruct (argv !! 1%nat) as [subcmd|] eqn:E.
  2:{ apply lookup_ge_None in E. lia. }
  rewrite (nth_lookup_Some _ _ "" _ E).
  destruct ((strcmp subcmd "-h" =? 0) || (strcmp subcmd "--help" =? 0)
            || (strcmp subcmd "help" =? 0)); [reflexivity|].
  pose proof (find_command_raw_spec subcmd) as Hf.
  destruct (find_command subcmd) as [c|].
  - destruct Hf as (i & -> & Hc & _). cbn [and_then]. rewrite Hc.
    cbn [cell raw_cpp_main]. destruct argv; reflexivity.
  - rewrite Hf. reflexivity.
Qed.

Lemma main_raw_is_safe_witness :
  main_raw 3 ["afdko"; "se"; "font.otf"]
  = Done (CallCpp main__sfntedit 2 ["se"; "font.otf"] Ret) /\
  main_raw 1 ["afdko"] = Done (print_help ;; Ret 1).
Proof.
  split.
  - rewrite (main_raw_is_safe 3 ["afdko"; "se"; "font.otf"] eq_refl).
    reflexivity.
  - rewrite (main_raw_is_safe 1 ["afdko"] eq_refl). reflexivity.
Defined.

(** ** Names, abbreviations and the registry *)

Lemma answers_to_keys c nm : answers_to c nm <-> nm ∈ keys_of c.
Proof.
  unfold answers_to, keys_of. destruct (abbrev c) as [a|].
  - rewrite !elem_of_cons, elem_of_nil. split.
    + intros [H|[= H]]; auto.
    + intros [H|[H|[]]]; subst; auto.
  - rewrite elem_of_cons, elem_of_nil. split.
    + intros [H|H]; [auto | discriminate].
    + intros [H|[]]; auto.
Qed.

Lemma keys_app cs1 cs2 : keys (cs1 ++ cs2) = (keys cs1 ++ keys cs2)%list.
Proof. unfold keys. now rewrite fmap_app, concat_app. Qed.

Lemma keys_elem cs c k : c ∈ cs -> k ∈ keys_of c -> k ∈ keys cs.
Proof.
  intros (pre & post & ->)%list_elem_of_split Hk.
  rewrite keys_app. apply elem_of_app. right.
  unfold keys. cbn [fmap list_fmap concat]. apply elem_of_app. now left.
Qed.

Lemma keys_commands_NoDup : NoDup (keys commands).
Proof. apply (bool_decide_unpack _). reflexivity. Qed.

Lemma find_command_from_keys (cs : list Command) :
  NoDup (keys cs) ->
  forall nm c,
    find_command_from cs nm = Some c <-> c ∈ cs /\ nm ∈ keys_of c.
Proof.
  intros Hnd nm c. split.
  - intros (pre & post & -> & Ha & _)%DispatchSpec.find_command_from_Some.
    split; [|now apply answers_to_keys].
    apply elem_of_app. right. apply elem_of_cons. now left.
  - intros [(pre & post & ->)%list_elem_of_split Hk].
    apply DispatchSpec.find_command_from_first; [now apply answers_to_keys|].
    apply Forall_forall. intros c' Hc' Ha%answers_to_keys.
    rewrite keys_app in Hnd. apply NoDup_app in Hnd as (_ & Hdisj & _).
    apply (Hdisj nm); [now apply (keys_elem pre c')|].
    apply (keys_elem (c :: post) c); [apply elem_of_cons; now left | exact Hk].
Qed.

(** X4.  In a registry whose names and abbreviations are pairwise
    distinct, and the registry of the source is one, a string resolves to
    a command exactly when it is that command's name or abbreviation: no
    entry hides another, every entry is reached by its name and by its
    abbreviation, and nothing else reaches it. *)
Theorem lookup_is_key_membership :
  NoDup (keys commands) /\
  (forall cs,
      NoDup (keys cs) ->
      forall nm c,
        find_command_from cs nm = Some c <-> c ∈ cs /\ nm ∈ keys_of c).
Proof.
  split.
  - exact keys_commands_NoDup.
  - intros cs Hnd nm c. now apply find_command_from_keys.
Qed.

Lemma lookup_is_key_membership_witness :
  find_command_from commands "se"
  = Some {| name := "sfntedit"; abbrev := Some "se"; cpp_main := main__sfntedit |}.
Proof.
  destruct lookup_is_key_membership as [Hnd H].
  apply (H commands Hnd). split.
  - apply elem_of_cons. right. apply elem_of_cons. now left.
  - apply elem_of_cons. right. apply elem_of_cons. now left.
Defined.

(** ** What a run of [main] looks like *)

Lemma run_help tool external (r : Z) :
  run tool external (print_help ;; Ret r) = (Stdout <$> help_lines, r).
Proof. reflexivity. Qed.

Lemma main_run_cases tool external argv :
  ((length argv < 2)%nat /\
   run tool external (main argv) = (Stdout <$> help_lines, 1)) \/
  ((2 <= length argv)%nat /\ is_help (nth 1 argv "") /\
   run tool external (main argv) = (Stdout <$> help_lines, 0)) \/
  ((2 <= length argv)%nat /\ ~ is_help (nth 1 argv "") /\
   find_command (nth 1 argv "") = None /\
   run tool external (main argv)
   = ([Stderr ("Error: Unknown command '" ++ nth 1 argv "" ++ "'" ++ LF);
       Stderr ("Run 'afdko --help' for usage." ++ LF)], 1)) \/
  (exists c,
      (2 <= length argv)%nat /\ find_command (nth 1 argv "") = Some c /\
      run tool external (main argv)
      = ([Called (cpp_main c) (Z.of_nat (length argv) - 1) (tail argv)],
         tool (cpp_main c) (Z.of_nat (length argv) - 1) (tail argv))).
Proof.
  destruct (le_lt_dec 2 (length argv)) as [H|H].
  - destruct (find_command (nth 1 argv "")) as [c|] eqn:Hf.
    + right. right. right. exists c. split; [exact H|]. split; [reflexivity|].
      now rewrite (DispatchSpec.main_registered argv c).
    + destruct (decide (is_help (nth 1 argv ""))) as [Hh|Hh].
      * right. left. split; [exact H|]. split; [exact Hh|].
        rewrite DispatchSpec.main_help by assumption. apply run_help.
      * right. right. left. repeat split; auto.
        now rewrite DispatchSpec.main_unknown.
  - left. split; [exact H|].
    rewrite DispatchSpec.main_no_subcommand by assumption. apply run_help.
Qed.

Lemma existsb_elem (p : Event -> bool) e t :
  In e t -> p e = true -> existsb p t = true.
Proof. intros Hin Hp. apply existsb_exists. eauto. Qed.

(** X5.  Whenever a run of [main] calls a tool, that call is all the run
    consists of: [main] writes nothing itself, calls one tool once, and
    returns the tool's value.  The tool finds at least one argument, its
    [argc] is the number of its arguments, its [argv[0]] is a name or an
    abbreviation of a registered command, and the tool called is that
    command's entry point. *)
Theorem tool_call_contract
    (tool : EntryPoint -> Z -> list string -> Z) (external : list string -> Z)
    (argv : list string) (f : EntryPoint) (argc : Z) (args : list string) :
  In (Called f argc args) (trace tool external argv) ->
  trace tool external argv = [Called f argc args] /\
  exit_status tool external argv = tool f argc args /\
  1 <= argc /\ argc = Z.of_nat (length args) /\
  exists c a0 key rest,
    argv = a0 :: key :: rest /\ args = key :: rest /\
    key ∈ keys_of c /\ c ∈ commands /\ f = cpp_main c.
Proof.
  unfold trace, exit_status. intros Hin.
  destruct (main_run_cases tool external argv)
    as [(_ & Hr)|[(_ & _ & Hr)|[(_ & _ & _ & Hr)|(c & Hlen & Hf & Hr)]]];
    rewrite Hr in *; cbn [fst snd] in *.
  - apply (existsb_elem is_call) in Hin; [discriminate Hin | reflexivity].
  - apply (existsb_elem is_call) in Hin; [discriminate Hin | reflexivity].
  - destruct Hin as [Hin|[Hin|[]]]; discriminate Hin.
  - destruct Hin as [[= <- <- <-]|[]].
    destruct argv as [|a0 [|key rest]]; simpl in Hlen; try lia.
    cbn [tail]. split; [reflexivity|]. split; [reflexivity|].
    split; [simpl length; lia|]. split; [simpl length; lia|].
    exists c, a0, key, rest. cbn [nth] in Hf.
    apply DispatchSpec.find_command_from_Some in Hf
      as (pre & post & Hc & Ha & _).
    fold commands in Hc. repeat split; [now apply answers_to_keys|].
    rewrite Hc. apply elem_of_app. right. apply elem_of_cons. now left.
Qed.

Lemma tool_call_contract_witness :
  trace (fun _ _ _ => 3) (fun _ => 0) ["afdko"; "tx"; "-dump"]
  = [Called main__tx 2 ["tx"; "-dump"]] /\
  exit_status (fun _ _ _ => 3) (fun _ => 0) ["afdko"; "tx"; "-dump"] = 3.
Proof.
  destruct (tool_call_contract (fun _ _ _ => 3) (fun _ => 0)
              ["afdko"; "tx"; "-dump"] main__tx 2 ["tx"; "-dump"])
    as (Ht & Hs & _).
  - left. reflexivity.
  - split; [exact Ht | exact Hs].
Defined.

(** X6.  [main] keeps its two output streams and its status apart.  A run
    that writes to stderr writes nothing to stdout, calls no tool, and
    returns 1; it is the run of a subcommand that is not registered.  A
    run that writes to stdout prints the help text and nothing else; it
    returns 0 when the first argument is a help flag and 1 when there is
    no argument.  And [main] returns 0 only when help was asked for or a
    tool was called (and returned 0). *)
Theorem output_streams_and_status
    (tool : EntryPoint -> Z -> list string -> Z) (external : list string -> Z)
    (argv : list string) :
  let t := trace tool external argv in
  let status := exit_status tool external argv in
  (existsb is_stderr t = true ->
   status = 1 /\ existsb is_stdout t = false /\ existsb is_call t = false /\
   (2 <= length argv)%nat /\ find_command (nth 1 argv "") = None) /\
  (existsb is_stdout t = true ->
   t = Stdout <$> help_lines /\
   ((length argv < 2)%nat /\ status = 1 \/
    (2 <= length argv)%nat /\ is_help (nth 1 argv "") /\ status = 0)) /\
  (status = 0 ->
   (2 <= length argv)%nat /\
   (is_help (nth 1 argv "") \/ existsb is_call t = true)).
Proof.
  unfold trace, exit_status.
  destruct (main_run_cases tool external argv)
    as [(Hlen & Hr)|[(Hlen & Hh & Hr)|[(Hlen & Hh & Hf & Hr)|(c & Hlen & Hf & Hr)]]];
    rewrite Hr; cbn [fst snd].
  - split; [discriminate|]. split; [auto|]. discriminate.
  - split; [discriminate|]. split; auto.
  - split; [auto|]. split; discriminate.
  - split; [discriminate|]. split; [discriminate|]. auto.
Qed.

Lemma output_streams_and_status_witness :
  exit_status (fun _ _ _ => 0) (fun _ => 0) ["afdko"; "spot"] = 1.
Proof.
  destruct (output_streams_and_status (fun _ _ _ => 0) (fun _ => 0)
              ["afdko"; "spot"]) as (H & _).
  apply H. reflexivity.
Defined.

(** X7.  Every line of commands in the help text keeps its word: for each
    registered command the help prints its line, and each name or
    abbreviation on it, given as first argument with anything behind it,
    reaches that command's own entry point with the arguments unchanged.
    So the invocation that the help text advises, the command followed by
    "-h", is handed to the command and is not answered by [main]. *)
Theorem listed_commands_dispatch
    (tool : EntryPoint -> Z -> list string -> Z) (external : list string -> Z)
    (c : Command) (key a0 : string) (rest : list string) :
  c ∈ commands -> key ∈ keys_of c ->
  In (Stdout (help_line c)) (fst (run tool external print_help)) /\
  main (a0 :: key :: rest)
  = CallCpp (cpp_main c) (Z.of_nat (length rest) + 1) (key :: rest) Ret /\
  trace tool external [a0; key; "-h"] = [Called (cpp_main c) 2 [key; "-h"]].
Proof.
  intros Hc Hk.
  assert (find_command key = Some c) as Hf
    by now apply (find_command_from_keys commands keys_commands_NoDup).
  split; [|split].
  - change (fst (run tool external print_help)) with (Stdout <$> help_lines).
    apply in_map. unfold help_lines. apply in_or_app. right.
    apply in_or_app. left. apply in_map. now apply list_elem_of_In.
  - rewrite (DispatchSpec.main_registered _ c); [|simpl; lia | exact Hf].
    unfold call. cbn [tail length]. f_equal. lia.
  - unfold trace.
    rewrite (DispatchSpec.main_registered _ c); [|simpl; lia | exact Hf].
    reflexivity.
Qed.

Lemma listed_commands_dispatch_witness :
  main ["afdko"; "se"; "-h"] = CallCpp main__sfntedit 2 ["se"; "-h"] Ret.
Proof.
  destruct (listed_commands_dispatch (fun _ _ _ => 0) (fun _ => 0)
              {| name := "sfntedit"; abbrev := Some "se"; cpp_main := main__sfntedit |}
              "se" "afdko" ["-h"]) as (_ & H & _).
  - apply elem_of_cons. right. apply elem_of_cons. now left.
  - apply elem_of_cons. right. apply elem_of_cons. now left.
  - exact H.
Defined.

(** ** The help listing *)

Lemma string_length_app (a b : string) :
  String.length (a ++ b) = (String.length a + String.length b)%nat.
Proof. induction a as [|c a IH]; simpl; [reflexivity | now rewrite IH]. Qed.

Lemma string_app_assoc (a b c : string) : ((a ++ b) ++ c = a ++ (b ++ c))%string.
Proof.
  induction a as [|x a IH]; [reflexivity|].
  change (String x ((a ++ b) ++ c) = String x (a ++ (b ++ c)))%string.
  now f_equal.
Qed.

Lemma blanks_S n : blanks (S n) = String " " (blanks n).
Proof. unfold blanks. destruct n; reflexivity. Qed.

Lemma blanks_length n : String.length (blanks n) = n.
Proof.
  induction n as [|n IH]; [reflexivity|].
  rewrite blanks_S. simpl. now rewrite IH.
Qed.

Lemma print_commands_run tool external cs :
  run tool external (print_commands cs)
  = ((fun c => Stdout (help_line c)) <$> cs, tt).
Proof.
  induction cs as [|c cs IH]; [reflexivity|].
  cbn [print_commands fmap list_fmap]. unfold help_line.
  destruct (abbrev c) as [a|]; cbn [printf bind run]; rewrite IH; reflexivity.
Qed.

(** X8.  The loop of [print_help] prints one line per entry of the
    registry, in registry order, on stdout.  A line begins with two blanks
    and the command's name in full: names are padded with blanks to 20
    characters and never cut, so the abbreviation of every command whose
    name has at most 20 characters starts in the same column, and a longer
    name pushes its abbreviation to the right instead of losing
    characters. *)
Theorem help_listing_format :
  (forall tool external cs,
      run tool external (print_commands cs)
      = ((fun c => Stdout (help_line c)) <$> cs, tt)) /\
  (forall c, abbrev c = None -> help_line c = "  " ++ name c ++ LF) /\
  (forall c a,
      abbrev c = Some a ->
      help_line c
      = "  " ++ name c ++ blanks (20 - String.length (name c))
             ++ " (abbrev: " ++ a ++ ")" ++ LF /\
      String.length ("  " ++ name c ++ blanks (20 - String.length (name c)))
      = Nat.max 22 (2 + String.length (name c))).
Proof.
  split; [exact print_commands_run|]. split.
  - intros c Ha. unfold help_line. now rewrite Ha.
  - intros c a Ha. split.
    + unfold help_line, pad_right. rewrite Ha. fold (blanks (20 - String.length (name c))).
      now rewrite string_app_assoc.
    + rewrite !string_length_app, blanks_length. simpl String.length. lia.
Qed.

Lemma help_listing_format_witness :
  help_line {| name := "sfntedit"; abbrev := Some "se"; cpp_main := main__sfntedit |}
  = "  sfntedit" ++ blanks 12 ++ " (abbrev: se)" ++ LF.
Proof.
  destruct help_listing_format as (_ & _ & H).
  destruct (H {| name := "sfntedit"; abbrev := Some "se"; cpp_main := main__sfntedit |}
              "se" eq_refl) as [Hl _].
  rewrite Hl. reflexivity.
Defined.

End DispatchRawSpec.
